(** * The request engine of the TypeScript server client

    A shallow embedding of
    [extensions/typescript-language-features/src/server.ts]:
    [CallbackMap], [RequestQueue] and the request engine of
    [TypeScriptServer] (submission, drain loop, dispatch, cancellation,
    teardown, failure reporting).

    Modelling conventions.
    - A protocol sequence number (a JavaScript [number]) is a [Z]; the
      counter [sequenceNumber++] never reaches 2^53 in practice and is not
      wrapped.
    - Opaque payloads ([any]) are carried as their JSON text.
    - A JavaScript [Map] is an association list in insertion order (the
      order in which [values()] iterates); the [Set] of pending responses,
      which is never iterated, is a [gset Z].
    - The collaborators (tracer, logger, telemetry reporter, event
      emitters, the child's stdin, the cancellation pipe) are observed
      through a chronological list of effects kept in the state.
    - [stdin.write] may throw; whether it does for a given request is
      decided by the section variable [stdin_write]. What it throws is kept
      apart from the [Error] objects the engine creates itself.
    - The promise created by [executeImpl], together with the variables its
      closures capture ([command], [wasCancelled], the token), is a cell of
      the [promises] heap; its [catch] reaction runs as a job at the end of
      the task that rejected it.
    - Every entry into the engine (a call of [executeImpl], a message from
      the reader, a token that fires, an [exit] or [error] event of the
      child, [dispose]) is one task of the event loop and runs to
      completion; listeners of the event emitters are taken not to call
      back into the engine while a task runs. *)

From Stdlib Require Import ZArith String Ascii.
From stdpp Require Import base gmap sets list strings pretty sorting.

Open Scope Z_scope.

(** ** JavaScript string primitives used by [parseErrorText] *)

Module Js.

Definition startsWith (s p : string) : bool := String.prefix p s.

(** [s.substr(from)] and [s.substring(from)], one argument. *)
Definition substr (s : string) (from : nat) : string :=
  String.substring from (String.length s - from)%nat s.

(** [s.substring(a, b)]. *)
Definition substring (s : string) (a b : nat) : string :=
  String.substring a (b - a)%nat s.

(** [s.indexOf(pat)]: -1 when [pat] does not occur. *)
Definition indexOf (s pat : string) : Z :=
  match String.index 0 pat s with
  | Some i => Z.of_nat i
  | None => -1
  end.

Definition newline : string := String (ascii_of_nat 10) EmptyString.

End Js.

(** ** JavaScript [Map<number, V>]: association list in insertion order *)

Module JsMap.

Fixpoint get {V} (m : list (Z * V)) (k : Z) : option V :=
  match m with
  | [] => None
  | (k', v) :: m' => if decide (k' = k) then Some v else get m' k
  end.

(** [set] keeps the position of a key that is already present. *)
Fixpoint set {V} (m : list (Z * V)) (k : Z) (v : V) : list (Z * V) :=
  match m with
  | [] => [(k, v)]
  | (k', v') :: m' =>
      if decide (k' = k) then (k, v) :: m' else (k', v') :: set m' k v
  end.

(** [delete] returns whether the key was present. *)
Fixpoint delete {V} (m : list (Z * V)) (k : Z) : bool * list (Z * V) :=
  match m with
  | [] => (false, [])
  | (k', v) :: m' =>
      if decide (k' = k) then (true, m')
      else let '(b, r) := delete m' k in (b, (k', v) :: r)
  end.

Definition values {V} (m : list (Z * V)) : list V := m.*2.

Definition keys {V} (m : list (Z * V)) : list Z := m.*1.

End JsMap.

(** ** Protocol data *)

Definition Any := string.

Record Request := {
  seq : Z;
  command : string;
  arguments : Any
}.

Record Response := {
  request_seq : Z;
  success : bool;
  message : option string;
  body : Any
}.

Record Event := {
  event : string;
  body_request_seq : Z;   (* [body.request_seq], read for [requestCompleted] *)
  event_body : Any
}.

Inductive Message :=
| Msg_response (r : Response)
| Msg_event (e : Event)
| Msg_other (type : string).

(** Values handed to a failure continuation. *)
Inductive Err :=
| JsError (msg : string)            (* [new Error(msg)] *)
| Thrown (msg : option string)      (* what [stdin.write] threw *)
| Failed (r : Response).            (* a response with [success = false] *)

(** [err && err.message] *)
Definition errMessage (e : Err) : option string :=
  match e with
  | JsError m => Some m
  | Thrown m => m
  | Failed r => message r
  end.

(** [new Error(`Cancelled Request ${seq}`)] *)
Definition cancelledError (s : Z) : Err :=
  JsError ("Cancelled Request " +:+ pretty s).

#[global] Instance Request_eq_dec : EqDecision Request.
Proof. solve_decision. Defined.

#[global] Instance Response_eq_dec : EqDecision Response.
Proof. solve_decision. Defined.

#[global] Instance Err_eq_dec : EqDecision Err.
Proof. solve_decision. Defined.

(** ** [interface CallbackItem]

    [onSuccess] and [onError] are the [resolve] and [reject] functions of
    one promise; the identifier of that promise stands for both. *)

Record CallbackItem := {
  promise : Z;
  startTime : Z;
  cb_isAsync : bool
}.

(** ** [class CallbackMap] *)

Module CallbackMap.

Record t := {
  _callbacks : list (Z * CallbackItem);
  _asyncCallbacks : list (Z * CallbackItem)
}.

Definition empty : t := {| _callbacks := []; _asyncCallbacks := [] |}.

(** [destroy(cause)]; [invoke cb] stands for [cb.onError(cause)] and acts on
    the state [S] of whoever owns the continuations. *)
Definition destroy {S : Type} (invoke : CallbackItem → S → S)
    (m : t) (s : S) : t * S :=
  let s := foldl (λ s cb, invoke cb s) s (JsMap.values (_callbacks m)) in
  let m := {| _callbacks := []; _asyncCallbacks := _asyncCallbacks m |} in
  let s := foldl (λ s cb, invoke cb s) s (JsMap.values (_asyncCallbacks m)) in
  ({| _callbacks := _callbacks m; _asyncCallbacks := [] |}, s).

Definition add (m : t) (seq : Z) (callback : CallbackItem) (isAsync : bool) : t :=
  if isAsync
  then {| _callbacks := _callbacks m;
          _asyncCallbacks := JsMap.set (_asyncCallbacks m) seq callback |}
  else {| _callbacks := JsMap.set (_callbacks m) seq callback;
          _asyncCallbacks := _asyncCallbacks m |}.

Definition delete (m : t) (seq : Z) : t :=
  let '(found, cs) := JsMap.delete (_callbacks m) seq in
  if found
  then {| _callbacks := cs; _asyncCallbacks := _asyncCallbacks m |}
  else {| _callbacks := cs;
          _asyncCallbacks := (JsMap.delete (_asyncCallbacks m) seq).2 |}.

Definition fetch (m : t) (seq : Z) : option CallbackItem * t :=
  let callback :=
    match JsMap.get (_callbacks m) seq with
    | Some cb => Some cb
    | None => JsMap.get (_asyncCallbacks m) seq
    end in
  (callback, delete m seq).

End CallbackMap.

(** ** [interface RequestItem] and [class RequestQueue] *)

Record RequestItem := {
  request : Request;
  expectsResponse : bool;
  isAsync : bool
}.

#[global] Instance RequestItem_eq_dec : EqDecision RequestItem.
Proof. solve_decision. Defined.

Module RequestQueue.

Record t := {
  queue : list RequestItem;
  sequenceNumber : Z
}.

Definition empty : t := {| queue := []; sequenceNumber := 0 |}.

Definition length (q : t) : nat := List.length (queue q).

Definition push (q : t) (item : RequestItem) : t :=
  {| queue := queue q ++ [item]; sequenceNumber := sequenceNumber q |}.

Definition shift (q : t) : option RequestItem * t :=
  match queue q with
  | [] => (None, q)
  | item :: rest =>
      (Some item, {| queue := rest; sequenceNumber := sequenceNumber q |})
  end.

(** The [for] loop with [splice(i, 1)]: the first matching item goes. *)
Fixpoint removeFirst (l : list RequestItem) (s : Z) : bool * list RequestItem :=
  match l with
  | [] => (false, [])
  | item :: rest =>
      if decide (seq (request item) = s) then (true, rest)
      else let '(b, r) := removeFirst rest s in (b, item :: r)
  end.

Definition tryCancelPendingRequest (q : t) (s : Z) : bool * t :=
  let '(b, l) := removeFirst (queue q) s in
  (b, {| queue := l; sequenceNumber := sequenceNumber q |}).

Definition createRequest (q : t) (command : string) (args : Any) : Request * t :=
  ({| seq := sequenceNumber q; command := command; arguments := args |},
   {| queue := queue q; sequenceNumber := sequenceNumber q + 1 |}).

End RequestQueue.

(** ** Observable effects *)

Inductive Effect :=
| EWrite (r : Request)                       (* [stdin.write] returned *)
| EWriteThrew (r : Request) (e : Err)        (* [stdin.write] threw [e] *)
| ECancellationPipe (s : Z)                  (* [fs.writeFileSync(pipe + s, '')] *)
| EOnSuccess (p : Z) (v : option Response)   (* [onSuccess(v)] of promise [p] *)
| EOnError (p : Z) (e : Err)                 (* [onError(e)] of promise [p] *)
| EFireEvent (e : Event)
| EFireExit (code : Any)
| EFireError (err : Any)
| EDisposeSuper
| EThrowUnknownMessage (type : string)
| ETraceRequest (r : Request) (expectsResponse : bool) (queueLength : nat)
| ETraceResponse (r : Response) (startTime : Z)
| ETraceRequestCompleted (s : Z) (startTime : Z)
| ELogTrace (kind : string) (s : Z)
| ELoggerError (msg : string) (e : Err)
| ETelemetry (eventName : string) (properties : gmap string string).

(** ** Promises created by [executeImpl] *)

Inductive PromiseState :=
| Pending
| Fulfilled (v : option Response)
| Rejected (e : Err).

Record Promise := {
  p_command : string;      (* the captured [command] *)
  p_token : bool;          (* whether [executeInfo.token] was supplied *)
  wasCancelled : bool;     (* the captured [let wasCancelled] *)
  p_state : PromiseState
}.

Definition settle (st : PromiseState) (p : Promise) : Promise :=
  {| p_command := p_command p; p_token := p_token p;
     wasCancelled := wasCancelled p; p_state := st |}.

Definition markCancelled (p : Promise) : Promise :=
  {| p_command := p_command p; p_token := p_token p;
     wasCancelled := true; p_state := p_state p |}.

(** ** [parseErrorText] *)

Definition errorPrefix : string := "Error processing request. ".

Definition parseErrorText (errorText : option string) (command : string)
    : gmap string string :=
  let properties : gmap string string := <["command" := command]> ∅ in
  match errorText with
  | None => properties
  | Some errorText =>
      if decide (errorText = "") then properties else
      let properties := <["errorText" := errorText]> properties in
      if Js.startsWith errorText errorPrefix then
        let prefixFreeErrorText :=
          Js.substr errorText (String.length errorPrefix) in
        let newlineIndex := Js.indexOf prefixFreeErrorText Js.newline in
        if decide (newlineIndex >= 0) then
          let properties :=
            <["message" :=
                Js.substring prefixFreeErrorText 0 (Z.to_nat newlineIndex)]>
              properties in
          <["stack" :=
              Js.substr prefixFreeErrorText (Z.to_nat (newlineIndex + 1))]>
            properties
        else properties
      else properties
  end.

(** ** [class TypeScriptServer] *)

Record TypeScriptServer := {
  _requestQueue : RequestQueue.t;
  _callbacks : CallbackMap.t;
  _pendingResponses : gset Z;
  _cancellationPipeName : option string;
  promises : gmap Z Promise;
  jobs : list (Z * Err);
  trace : list Effect
}.

Definition newServer (cancellationPipeName : option string) : TypeScriptServer :=
  {| _requestQueue := RequestQueue.empty;
     _callbacks := CallbackMap.empty;
     _pendingResponses := ∅;
     _cancellationPipeName := cancellationPipeName;
     promises := ∅;
     jobs := [];
     trace := [] |}.

Definition with_requestQueue (q : RequestQueue.t) (s : TypeScriptServer) :=
  {| _requestQueue := q; _callbacks := _callbacks s;
     _pendingResponses := _pendingResponses s;
     _cancellationPipeName := _cancellationPipeName s;
     promises := promises s; jobs := jobs s; trace := trace s |}.

Definition with_callbacks (m : CallbackMap.t) (s : TypeScriptServer) :=
  {| _requestQueue := _requestQueue s; _callbacks := m;
     _pendingResponses := _pendingResponses s;
     _cancellationPipeName := _cancellationPipeName s;
     promises := promises s; jobs := jobs s; trace := trace s |}.

Definition with_pendingResponses (p : gset Z) (s : TypeScriptServer) :=
  {| _requestQueue := _requestQueue s; _callbacks := _callbacks s;
     _pendingResponses := p;
     _cancellationPipeName := _cancellationPipeName s;
     promises := promises s; jobs := jobs s; trace := trace s |}.

Definition with_promises (h : gmap Z Promise) (s : TypeScriptServer) :=
  {| _requestQueue := _requestQueue s; _callbacks := _callbacks s;
     _pendingResponses := _pendingResponses s;
     _cancellationPipeName := _cancellationPipeName s;
     promises := h; jobs := jobs s; trace := trace s |}.

Definition with_jobs (j : list (Z * Err)) (s : TypeScriptServer) :=
  {| _requestQueue := _requestQueue s; _callbacks := _callbacks s;
     _pendingResponses := _pendingResponses s;
     _cancellationPipeName := _cancellationPipeName s;
     promises := promises s; jobs := j; trace := trace s |}.

Definition emit (es : list Effect) (s : TypeScriptServer) :=
  {| _requestQueue := _requestQueue s; _callbacks := _callbacks s;
     _pendingResponses := _pendingResponses s;
     _cancellationPipeName := _cancellationPipeName s;
     promises := promises s; jobs := jobs s; trace := trace s ++ es |}.

(** [callback.onSuccess(v)]: resolve the promise; a settled promise ignores
    the call. *)
Definition onSuccess (cb : CallbackItem) (v : option Response)
    (s : TypeScriptServer) : TypeScriptServer :=
  let s := emit [EOnSuccess (promise cb) v] s in
  match promises s !! promise cb with
  | Some p =>
      match p_state p with
      | Pending =>
          with_promises
            (<[promise cb := settle (Fulfilled v) p]> (promises s)) s
      | _ => s
      end
  | None => s
  end.

(** [callback.onError(e)]: reject the promise and queue the job of its
    [catch] reaction; a settled promise ignores the call. *)
Definition onError (cb : CallbackItem) (e : Err)
    (s : TypeScriptServer) : TypeScriptServer :=
  let s := emit [EOnError (promise cb) e] s in
  match promises s !! promise cb with
  | Some p =>
      match p_state p with
      | Pending =>
          with_jobs (jobs s ++ [(promise cb, e)])
            (with_promises
               (<[promise cb := settle (Rejected e) p]> (promises s)) s)
      | _ => s
      end
  | None => s
  end.

(** The [catch] reaction installed by [executeImpl] (it rethrows [err] to
    the caller afterwards). *)
Definition catchHandler (p : Promise) (err : Err) : list Effect :=
  if wasCancelled p then []
  else [ ELoggerError ("'" +:+ p_command p +:+ "' request failed with error.") err;
         ETelemetry "languageServiceErrorResponse"
           (parseErrorText (errMessage err) (p_command p)) ].

Definition runJob (s : TypeScriptServer) (job : Z * Err) : TypeScriptServer :=
  match promises s !! job.1 with
  | Some p => emit (catchHandler p job.2) s
  | None => s
  end.

(** The promise jobs queued by a task run when the task returns. *)
Definition runJobs (s : TypeScriptServer) : TypeScriptServer :=
  foldl runJob (with_jobs [] s) (jobs s).

(** [executeInfo]; [info_token] tells whether a token was supplied. *)
Record ExecuteInfo := {
  info_isAsync : bool;
  info_token : bool;
  info_expectsResult : bool
}.

(** The tasks of the event loop that reach the engine. *)
Inductive Op :=
| OpExecute (command : string) (args : Any) (info : ExecuteInfo) (now : Z)
| OpData (msg : Message)      (* the reader delivers a message *)
| OpCancel (s : Z)            (* the token given with request [s] fires *)
| OpExit (code : Any)         (* the child process emits [exit] *)
| OpError (err : Any)         (* the child process emits [error] *)
| OpDispose.

Section Engine.

(** [stdin_write r = Some m] when writing [r] throws; [m] is the [message]
    property of what is thrown, if it has one. *)
Variable stdin_write : Request → option (option string).

Definition fetchCallback (s : Z) (st : TypeScriptServer)
    : option CallbackItem * TypeScriptServer :=
  let '(callback, m) := CallbackMap.fetch (_callbacks st) s in
  let st := with_callbacks m st in
  match callback with
  | None => (None, st)
  | Some cb =>
      (Some cb, with_pendingResponses (_pendingResponses st ∖ {[s]}) st)
  end.

Definition sendRequest (requestItem : RequestItem) (st : TypeScriptServer)
    : TypeScriptServer :=
  let serverRequest := request requestItem in
  let st :=
    emit [ETraceRequest serverRequest (expectsResponse requestItem)
            (RequestQueue.length (_requestQueue st))] st in
  let st :=
    if expectsResponse requestItem && negb (isAsync requestItem)
    then with_pendingResponses
           ({[seq (request requestItem)]} ∪ _pendingResponses st) st
    else st in
  match stdin_write serverRequest with
  | None => emit [EWrite serverRequest] st
  | Some thrown =>
      let err := Thrown thrown in
      let st := emit [EWriteThrew serverRequest err] st in
      let '(callback, st) := fetchCallback (seq serverRequest) st in
      match callback with
      | Some cb => onError cb err st
      | None => st
      end
  end.

(** The [while] loop of [sendNextRequests]; every iteration shortens the
    queue, so its length is enough fuel ([sendNextRequests_done]). *)
Fixpoint sendNextRequests_loop (fuel : nat) (st : TypeScriptServer)
    : TypeScriptServer :=
  match fuel with
  | O => st
  | S fuel =>
      if decide (size (_pendingResponses st) = 0%nat
                 ∧ (0 < RequestQueue.length (_requestQueue st))%nat)
      then
        let '(item, q) := RequestQueue.shift (_requestQueue st) in
        let st := with_requestQueue q st in
        match item with
        | Some item => sendNextRequests_loop fuel (sendRequest item st)
        | None => sendNextRequests_loop fuel st
        end
      else st
  end.

Definition sendNextRequests (st : TypeScriptServer) : TypeScriptServer :=
  sendNextRequests_loop (RequestQueue.length (_requestQueue st)) st.

Definition destroyCallbacks (cause : Err) (st : TypeScriptServer)
    : TypeScriptServer :=
  let '(m, st) :=
    CallbackMap.destroy (λ cb, onError cb cause) (_callbacks st) st in
  with_callbacks m st.

Definition dispose (st : TypeScriptServer) : TypeScriptServer :=
  let st := emit [EDisposeSuper] st in
  let st := destroyCallbacks (JsError "server disposed") st in
  with_pendingResponses ∅ st.

Definition handleExit (error : Any) (st : TypeScriptServer) : TypeScriptServer :=
  let st := emit [EFireExit error] st in
  destroyCallbacks (JsError "server exited") st.

Definition handleError (error : Any) (st : TypeScriptServer) : TypeScriptServer :=
  let st := emit [EFireError error] st in
  destroyCallbacks (JsError "server errored") st.

Definition dispatchResponse (response : Response) (st : TypeScriptServer)
    : TypeScriptServer :=
  let '(callback, st) := fetchCallback (request_seq response) st in
  match callback with
  | None => st
  | Some cb =>
      let st := emit [ETraceResponse response (startTime cb)] st in
      if success response
      then onSuccess cb (Some response) st
      else onError cb (Failed response) st
  end.

(** The [try] block of [dispatchMessage]. *)
Definition dispatchBody (msg : Message) (st : TypeScriptServer)
    : TypeScriptServer :=
  match msg with
  | Msg_response r => dispatchResponse r st
  | Msg_event e =>
      if decide (event e = "requestCompleted") then
        let s := body_request_seq e in
        let '(p, m) := CallbackMap.fetch (_callbacks st) s in
        let st := with_callbacks m st in
        match p with
        | Some p =>
            onSuccess p None
              (emit [ETraceRequestCompleted s (startTime p)] st)
        | None => st
        end
      else emit [EFireEvent e] st
  | Msg_other _ => st
  end.

(** [dispatchMessage]: the [finally] block runs the drain loop; the error
    for an unknown message type leaves the function after it. *)
Definition dispatchMessage (msg : Message) (st : TypeScriptServer)
    : TypeScriptServer :=
  let st := sendNextRequests (dispatchBody msg st) in
  match msg with
  | Msg_other type => emit [EThrowUnknownMessage type] st
  | _ => st
  end.

(** The [try] block of [tryCancelRequest]. *)
Definition tryCancelBody (s : Z) (st : TypeScriptServer)
    : bool * TypeScriptServer :=
  let '(removed, q) :=
    RequestQueue.tryCancelPendingRequest (_requestQueue st) s in
  let st := with_requestQueue q st in
  if removed then (true, emit [ELogTrace "canceled request" s] st)
  else
    match _cancellationPipeName st with
    | Some _ =>
        (true, emit [ELogTrace "trying to cancel ongoing request" s;
                     ECancellationPipe s] st)
    | None =>
        (false, emit [ELogTrace "request got already delivered" s] st)
    end.

Definition tryCancelRequest (s : Z) (st : TypeScriptServer)
    : bool * TypeScriptServer :=
  let '(result, st) := tryCancelBody s st in
  let '(callback, st) := fetchCallback s st in
  match callback with
  | Some cb => (result, onError cb (cancelledError s) st)
  | None => (result, st)
  end.

(** The listener [executeImpl] installs on the token of request [s]. *)
Definition onCancellationRequested (s : Z) (st : TypeScriptServer)
    : TypeScriptServer :=
  match promises st !! s with
  | Some p =>
      if p_token p then
        (tryCancelRequest s
           (with_promises (<[s := markCancelled p]> (promises st)) st)).2
      else st
  | None => st
  end.

(** The part of [executeImpl] before the drain loop; [now] is [Date.now()].
    The promise handed back is the cell [seq] of the request when a result
    is expected. *)
Definition submit (command : string) (args : Any) (executeInfo : ExecuteInfo)
    (now : Z) (st : TypeScriptServer) : TypeScriptServer :=
  let '(request, q) :=
    RequestQueue.createRequest (_requestQueue st) command args in
  let st := with_requestQueue q st in
  let requestInfo :=
    {| request := request;
       expectsResponse := info_expectsResult executeInfo;
       isAsync := info_isAsync executeInfo |} in
  let st :=
    if info_expectsResult executeInfo then
      let st :=
        with_promises
          (<[seq request := {| p_command := command;
                               p_token := info_token executeInfo;
                               wasCancelled := false;
                               p_state := Pending |}]> (promises st)) st in
      with_callbacks
        (CallbackMap.add (_callbacks st) (seq request)
           {| promise := seq request; startTime := now;
              cb_isAsync := info_isAsync executeInfo |}
           (info_isAsync executeInfo)) st
    else st in
  with_requestQueue (RequestQueue.push (_requestQueue st) requestInfo) st.

Definition executeImpl (command : string) (args : Any) (executeInfo : ExecuteInfo)
    (now : Z) (st : TypeScriptServer) : TypeScriptServer :=
  sendNextRequests (submit command args executeInfo now st).

Definition handle (op : Op) (st : TypeScriptServer) : TypeScriptServer :=
  match op with
  | OpExecute c a i n => executeImpl c a i n st
  | OpData m => dispatchMessage m st
  | OpCancel s => onCancellationRequested s st
  | OpExit c => handleExit c st
  | OpError e => handleError e st
  | OpDispose => dispose st
  end.

(** One task: the handler runs to completion, then the promise jobs. *)
Definition task (op : Op) (st : TypeScriptServer) : TypeScriptServer :=
  runJobs (handle op st).

Definition run (ops : list Op) (st : TypeScriptServer) : TypeScriptServer :=
  foldl (λ st op, task op st) st ops.

End Engine.

(** ** Vocabulary of the properties *)

Definition queueOf (st : TypeScriptServer) : list RequestItem :=
  RequestQueue.queue (_requestQueue st).

Definition nextSeq (st : TypeScriptServer) : Z :=
  RequestQueue.sequenceNumber (_requestQueue st).

Definition syncCallbacks (st : TypeScriptServer) : list (Z * CallbackItem) :=
  CallbackMap._callbacks (_callbacks st).

Definition asyncCallbacks (st : TypeScriptServer) : list (Z * CallbackItem) :=
  CallbackMap._asyncCallbacks (_callbacks st).

Definition seqOf (item : RequestItem) : Z := seq (request item).

(** A pending outcome is registered for [k] in one of the two partitions. *)
Definition registered (st : TypeScriptServer) (k : Z) : Prop :=
  is_Some (JsMap.get (syncCallbacks st) k)
  ∨ is_Some (JsMap.get (asyncCallbacks st) k).

(** Requests handed to [stdin.write], in order (whether or not it threw). *)
Definition writeOf (e : Effect) : option Request :=
  match e with
  | EWrite r | EWriteThrew r _ => Some r
  | _ => None
  end.

Definition writes (tr : list Effect) : list Request := omap writeOf tr.

(** Promises one of whose continuations was called, in order. *)
Definition invocationOf (e : Effect) : option Z :=
  match e with
  | EOnSuccess p _ | EOnError p _ => Some p
  | _ => None
  end.

Definition invoked (tr : list Effect) : list Z := omap invocationOf tr.

(** How many times a continuation of promise [k] was called. *)
Definition invocations (k : Z) (tr : list Effect) : nat :=
  count_occ Z.eq_dec (invoked tr) k.

(** Calls of failure continuations, in order. *)
Definition failureOf (e : Effect) : option (Z * Err) :=
  match e with
  | EOnError p err => Some (p, err)
  | _ => None
  end.

Definition failures (tr : list Effect) : list (Z * Err) := omap failureOf tr.

(** Records forwarded to the telemetry reporter, in order. *)
Definition telemetryOf (e : Effect) : option (string * gmap string string) :=
  match e with
  | ETelemetry n props => Some (n, props)
  | _ => None
  end.

Definition telemetry (tr : list Effect) : list (string * gmap string string) :=
  omap telemetryOf tr.

(** The request item [executeImpl] creates in state [st]. *)
Definition submittedItem (op : Op) (st : TypeScriptServer) : list RequestItem :=
  match op with
  | OpExecute c a i _ =>
      [ {| request := {| seq := nextSeq st; command := c; arguments := a |};
           expectsResponse := info_expectsResult i;
           isAsync := info_isAsync i |} ]
  | _ => []
  end.

(** The request items created by the tasks [ops] run from [st]. *)
Fixpoint submitted (stdin_write : Request → option (option string))
    (ops : list Op)
    (st : TypeScriptServer) : list RequestItem :=
  match ops with
  | [] => []
  | op :: ops =>
      submittedItem op st ++ submitted stdin_write ops (task stdin_write op st)
  end.

(** The tasks whose handler runs the drain loop [sendNextRequests]. *)
Definition drains (op : Op) : bool :=
  match op with
  | OpExecute _ _ _ _ | OpData _ => true
  | _ => false
  end.

(** The command of the request numbered [k] among the items [h]. *)
Definition commandOf (h : list RequestItem) (k : Z) : string :=
  match List.find (λ it, bool_decide (seqOf it = k)) h with
  | Some it => command (request it)
  | None => ""
  end.

(** The diagnostic record of a failure [(k, err)]. *)
Definition diagnosticRecord (h : list RequestItem) (f : Z * Err)
    : string * gmap string string :=
  ("languageServiceErrorResponse",
   parseErrorText (errMessage f.2) (commandOf h f.1)).

(** The failure was not the cancellation of its own request. *)
Definition notCancellation (f : Z * Err) : Prop := f.2 ≠ cancelledError f.1.

(** ** Concrete scenarios *)

Module Scenario.

(** Every write succeeds. *)
Definition writes_succeed : Request → option (option string) := λ _, None.

Definition sync_info : ExecuteInfo :=
  {| info_isAsync := false; info_token := true; info_expectsResult := true |}.

Definition async_info : ExecuteInfo :=
  {| info_isAsync := true; info_token := true; info_expectsResult := true |}.

Definition requestCompleted (s : Z) : Message :=
  Msg_event {| event := "requestCompleted"; body_request_seq := s;
               event_body := "" |}.

Definition response (s : Z) (ok : bool) : Message :=
  Msg_response {| request_seq := s; success := ok; message := None;
                  body := "" |}.

Definition item (s : Z) (c : string) (i : ExecuteInfo) : RequestItem :=
  {| request := {| seq := s; command := c; arguments := "" |};
     expectsResponse := info_expectsResult i; isAsync := info_isAsync i |}.

Definition callback (s : Z) (i : ExecuteInfo) : CallbackItem :=
  {| promise := s; startTime := 0; cb_isAsync := info_isAsync i |}.

(** One synchronous request in flight, a second one queued behind it. *)
Definition two_sync : TypeScriptServer :=
  run writes_succeed
    [OpExecute "quickinfo" "" sync_info 0; OpExecute "references" "" sync_info 0]
    (newServer None).

(** An asynchronous request in flight and two synchronous requests queued
    and unsent: the synchronous request they were waiting for has just been
    cancelled. *)
Definition before_exit : TypeScriptServer :=
  run writes_succeed
    [OpExecute "geterr" "" async_info 0;
     OpExecute "quickinfo" "" sync_info 0;
     OpExecute "references" "" sync_info 0;
     OpExecute "rename" "" sync_info 0;
     OpCancel 1]
    (newServer None).

End Scenario.

(** * Invariants *)

(** ** Structural invariant

    [SInv h st], where [h] lists the request items submitted so far.
    Sequence numbers are distinct and below the counter; the queue holds
    submitted items in increasing order of sequence number;
    [_pendingResponses] has at most one element, the number of a synchronous
    request that expects a result and that precedes every queued item; a
    callback registered under [k] settles promise [k] and sits in the
    partition its request was submitted for. *)

Record SInv (h : list RequestItem) (st : TypeScriptServer) : Prop := {
  s_hist_lt : ∀ it, it ∈ h → seqOf it < nextSeq st;
  s_hist_nodup : NoDup (seqOf <$> h);
  s_queue_in : ∀ it, it ∈ queueOf st → it ∈ h;
  s_queue_sorted : StronglySorted Z.lt (seqOf <$> queueOf st);
  s_pend_size : (size (_pendingResponses st) ≤ 1)%nat;
  s_pend_hist : ∀ s, s ∈ _pendingResponses st →
    ∃ it, it ∈ h ∧ seqOf it = s ∧ isAsync it = false ∧ expectsResponse it = true;
  s_pend_lt : ∀ s it,
    s ∈ _pendingResponses st → it ∈ queueOf st → s < seqOf it;
  s_sync : ∀ k cb, JsMap.get (syncCallbacks st) k = Some cb →
    promise cb = k
    ∧ ∃ it, it ∈ h ∧ seqOf it = k ∧ isAsync it = false ∧ expectsResponse it = true;
  s_async : ∀ k cb, JsMap.get (asyncCallbacks st) k = Some cb →
    promise cb = k
    ∧ ∃ it, it ∈ h ∧ seqOf it = k ∧ isAsync it = true ∧ expectsResponse it = true;
  s_sync_nodup : NoDup (JsMap.keys (syncCallbacks st));
  s_async_nodup : NoDup (JsMap.keys (asyncCallbacks st))
}.

(** ** The gate: nothing is written past an unresolved synchronous request

    [WInvX X st]: every request written so far was numbered below the
    counter, and a callback in the synchronous partition under [k] (unless
    [X] exempts [k]) belongs to a request that is still queued or in flight
    while no request numbered after [k] has been written. *)

Record WInvX (X : Z → Prop) (st : TypeScriptServer) : Prop := {
  w_lt : ∀ r, r ∈ writes (trace st) → seq r < nextSeq st;
  w_block : ∀ k cb, JsMap.get (syncCallbacks st) k = Some cb → ¬ X k →
    (k ∈ seqOf <$> queueOf st ∨ k ∈ _pendingResponses st)
    ∧ ∀ r, r ∈ writes (trace st) → seq r ≤ k
}.

Definition WInv : TypeScriptServer → Prop := WInvX (λ _, False).

(** ** Outcomes and reports

    [PInv R h st], where [R] holds of the sequence numbers whose outcome is
    still to be resolved. Such a promise is pending, its [wasCancelled] is
    false and none of its continuations has been called; every other
    promise has had exactly one call. The promises are those of the
    submitted requests that expect a result. The telemetry records sent so
    far, followed by those the queued promise jobs will send, are the
    diagnostic records of the failures that are not cancellations. *)

#[global] Instance notCancellation_dec f : Decision (notCancellation f).
Proof. unfold notCancellation. apply _. Defined.

(** The effects of the promise jobs that are still to run. *)
Definition pendingEffects (st : TypeScriptServer) : list Effect :=
  jobs st ≫= λ j,
    match promises st !! j.1 with
    | Some p => catchHandler p j.2
    | None => []
    end.

Record PInv (R : Z → Prop) (h : list RequestItem) (st : TypeScriptServer)
    : Prop := {
  p_reg : ∀ k, R k →
    invocations k (trace st) = 0%nat
    ∧ ∃ p, promises st !! k = Some p
           ∧ p_state p = Pending ∧ wasCancelled p = false;
  p_done : ∀ k, ¬ R k → is_Some (promises st !! k) →
    invocations k (trace st) = 1%nat;
  p_none : ∀ k, promises st !! k = None → invocations k (trace st) = 0%nat;
  p_cell : ∀ k p, promises st !! k = Some p →
    ∃ it, it ∈ h ∧ seqOf it = k ∧ expectsResponse it = true
          ∧ command (request it) = p_command p;
  p_all : ∀ it, it ∈ h → expectsResponse it = true →
    is_Some (promises st !! seqOf it);
  p_jobs : ∀ j, j ∈ jobs st → is_Some (promises st !! j.1);
  p_tel :
    telemetry (trace st) ++ telemetry (pendingEffects st)
    = diagnosticRecord h <$> filter notCancellation (failures (trace st))
}.

(** ** The part of the state the outcomes depend on *)

Definition view (st : TypeScriptServer) :=
  (promises st, jobs st, trace st).

(** The causes given by the teardown paths are not cancellations. *)
Definition teardownCause (cause : Err) : Prop :=
  cause = JsError "server exited" ∨ cause = JsError "server errored"
  ∨ cause = JsError "server disposed".

(** * Proofs *)

Set Warnings "-clear-no-such-hyp".

(** ** Facts about [JsMap] *)

Section JsMapFacts.
Context {V : Type}.
Implicit Types (m : list (Z * V)) (k : Z) (v : V).

Lemma JsMap_get_None m k : JsMap.get m k = None ↔ k ∉ JsMap.keys m.
Proof.
  unfold JsMap.keys. induction m as [|[k' v'] m IH]; simpl.
  - split; [intros _; apply not_elem_of_nil | done].
  - rewrite not_elem_of_cons. case_decide as Hk.
    + split; [done | intros [Hne _]; by destruct Hne].
    + rewrite IH. naive_solver.
Qed.

Lemma JsMap_get_Some_elem m k v : JsMap.get m k = Some v → (k, v) ∈ m.
Proof.
  induction m as [|[k' v'] m IH]; simpl; [done|].
  case_decide; subst.
  - intros [= ->]. left.
  - intros. right. auto.
Qed.

Lemma JsMap_get_is_Some m k : is_Some (JsMap.get m k) ↔ k ∈ JsMap.keys m.
Proof.
  rewrite <- not_eq_None_Some, JsMap_get_None.
  destruct (decide (k ∈ JsMap.keys m)); naive_solver.
Qed.

Lemma JsMap_elem_get m k v :
  NoDup (JsMap.keys m) → (k, v) ∈ m → JsMap.get m k = Some v.
Proof.
  unfold JsMap.keys. induction m as [|[k' v'] m IH]; simpl.
  - intros _ H. by apply elem_of_nil in H.
  - intros Hnd Hin. apply NoDup_cons in Hnd as [Hk Hnd].
    apply elem_of_cons in Hin as [[= -> ->]|Hin].
    + by rewrite decide_True.
    + rewrite decide_False; [auto|].
      intros ->. apply Hk. by apply (list_elem_of_fmap_2 fst) in Hin.
Qed.

Lemma JsMap_delete_absent m k :
  JsMap.get m k = None → JsMap.delete m k = (false, m).
Proof.
  induction m as [|[k' v'] m IH]; simpl; [done|].
  case_decide; [done|]. intros Hm%IH. by rewrite Hm.
Qed.

Lemma JsMap_delete_found m k :
  (JsMap.delete m k).1 = true ↔ is_Some (JsMap.get m k).
Proof.
  induction m as [|[k' v'] m IH]; simpl.
  - split; [done | by intros [? ?]].
  - case_decide; simpl; [naive_solver|].
    destruct (JsMap.delete m k) as [b r]; simpl in *. done.
Qed.

Lemma JsMap_get_delete_ne m k k' :
  k ≠ k' → JsMap.get (JsMap.delete m k).2 k' = JsMap.get m k'.
Proof.
  intros Hne. induction m as [|[k1 v1] m IH]; simpl; [done|].
  case_decide; subst; simpl.
  - by rewrite decide_False.
  - destruct (JsMap.delete m k) as [b r]; simpl in *.
    case_decide; done.
Qed.

Lemma JsMap_keys_delete m k :
  JsMap.keys (JsMap.delete m k).2 `sublist_of` JsMap.keys m.
Proof.
  unfold JsMap.keys. induction m as [|[k1 v1] m IH]; simpl; [done|].
  case_decide; simpl.
  - by apply sublist_cons.
  - destruct (JsMap.delete m k) as [b r]; simpl in *. by apply sublist_skip.
Qed.

Lemma JsMap_NoDup_delete m k :
  NoDup (JsMap.keys m) → NoDup (JsMap.keys (JsMap.delete m k).2).
Proof. intros Hnd. eapply sublist_NoDup; [exact Hnd | apply JsMap_keys_delete]. Qed.

Lemma JsMap_get_delete_eq m k :
  NoDup (JsMap.keys m) → JsMap.get (JsMap.delete m k).2 k = None.
Proof.
  unfold JsMap.keys. induction m as [|[k1 v1] m IH]; simpl; [done|].
  intros [Hk Hnd]%NoDup_cons. case_decide; subst; simpl.
  - by apply JsMap_get_None.
  - destruct (JsMap.delete m k) as [b r]; simpl in *.
    rewrite decide_False by done. auto.
Qed.

Lemma JsMap_get_set m k v k' :
  JsMap.get (JsMap.set m k v) k'
  = if decide (k = k') then Some v else JsMap.get m k'.
Proof.
  induction m as [|[k1 v1] m IH]; simpl.
  - repeat case_decide; done.
  - repeat (case_decide; simpl; subst); try done.
Qed.

Lemma JsMap_set_fresh m k v :
  JsMap.get m k = None → JsMap.set m k v = m ++ [(k, v)].
Proof.
  induction m as [|[k1 v1] m IH]; simpl; [done|].
  case_decide; [done|]. intros Hm%IH. by rewrite Hm.
Qed.

End JsMapFacts.

(** ** What each action leaves untouched *)

Section Frames.
Variable stdin_write : Request → option (option string).

Lemma onError_frame cb e st :
  _requestQueue (onError cb e st) = _requestQueue st
  ∧ _callbacks (onError cb e st) = _callbacks st
  ∧ _pendingResponses (onError cb e st) = _pendingResponses st.
Proof. unfold onError. repeat case_match; done. Qed.

Lemma onSuccess_frame cb v st :
  _requestQueue (onSuccess cb v st) = _requestQueue st
  ∧ _callbacks (onSuccess cb v st) = _callbacks st
  ∧ _pendingResponses (onSuccess cb v st) = _pendingResponses st.
Proof. unfold onSuccess. repeat case_match; done. Qed.

Lemma fetchCallback_queue s st :
  _requestQueue (fetchCallback s st).2 = _requestQueue st.
Proof. unfold fetchCallback. repeat case_match; simplify_eq/=; done. Qed.

Lemma sendRequest_queue item st :
  _requestQueue (sendRequest stdin_write item st) = _requestQueue st.
Proof.
  unfold sendRequest.
  destruct (stdin_write _) as [thrown|]; [|by destruct (_ && _)].
  match goal with |- context [fetchCallback ?s ?x] =>
    pose proof (fetchCallback_queue s x) as Hq;
    destruct (fetchCallback s x) as [[cb|] st'] end; simpl in *.
  - destruct (onError_frame cb (Thrown thrown) st') as (-> & _). rewrite Hq.
    by destruct (_ && _).
  - rewrite Hq. by destruct (_ && _).
Qed.

(** Fuel beyond the length of the queue is never used. *)
Lemma sendNextRequests_loop_fuel f1 f2 st :
  (length (queueOf st) ≤ f1)%nat → (length (queueOf st) ≤ f2)%nat →
  sendNextRequests_loop stdin_write f1 st
  = sendNextRequests_loop stdin_write f2 st.
Proof.
  revert f2 st. induction f1 as [|f1 IH]; intros f2 st H1 H2.
  - destruct (queueOf st) eqn:Hq; simpl in *; [|lia].
    destruct f2; simpl; [done|].
    unfold RequestQueue.length. fold (queueOf st). rewrite Hq. simpl.
    by rewrite decide_False by lia.
  - destruct f2 as [|f2]; simpl.
    + unfold RequestQueue.length. fold (queueOf st).
      destruct (queueOf st); simpl in *; [|lia]. by rewrite decide_False by lia.
    + unfold RequestQueue.length, RequestQueue.shift. fold (queueOf st).
      destruct (queueOf st) as [|item q] eqn:Hq; simpl in *.
      * by rewrite !decide_False by lia.
      * case_decide; [|done].
        apply IH; unfold queueOf; rewrite sendRequest_queue; simpl; lia.
Qed.

(** The drain loop as a recursion on the queue. *)
Lemma sendNextRequests_loop_unfold fuel st :
  (length (queueOf st) ≤ fuel)%nat →
  sendNextRequests_loop stdin_write fuel st =
  match queueOf st with
  | [] => st
  | item :: q =>
      if decide (size (_pendingResponses st) = 0%nat) then
        sendNextRequests stdin_write
          (sendRequest stdin_write item
             (with_requestQueue
                {| RequestQueue.queue := q;
                   RequestQueue.sequenceNumber := nextSeq st |} st))
      else st
  end.
Proof.
  intros Hlen. destruct fuel as [|fuel].
  - destruct (queueOf st) eqn:Hq; simpl in *; [done | lia].
  - simpl. unfold RequestQueue.length, RequestQueue.shift.
    fold (queueOf st). destruct (queueOf st) as [|item q] eqn:Hq; simpl in *.
    + by rewrite decide_False by lia.
    + destruct (decide (size (_pendingResponses st) = 0%nat)).
      * rewrite decide_True by (split; [done | lia]).
        fold (nextSeq st). unfold sendNextRequests.
        apply sendNextRequests_loop_fuel;
          unfold RequestQueue.length, queueOf;
          rewrite sendRequest_queue; simpl; lia.
      * rewrite decide_False by tauto. done.
Qed.

Lemma sendNextRequests_unfold st :
  sendNextRequests stdin_write st =
  match queueOf st with
  | [] => st
  | item :: q =>
      if decide (size (_pendingResponses st) = 0%nat) then
        sendNextRequests stdin_write
          (sendRequest stdin_write item
             (with_requestQueue
                {| RequestQueue.queue := q;
                   RequestQueue.sequenceNumber := nextSeq st |} st))
      else st
  end.
Proof. unfold sendNextRequests at 1. by apply sendNextRequests_loop_unfold. Qed.

(** Invariant rule for the drain loop. *)
Lemma sendNextRequests_ind (I : TypeScriptServer → Prop) :
  (∀ st item q,
     I st → queueOf st = item :: q → _pendingResponses st = ∅ →
     I (sendRequest stdin_write item
          (with_requestQueue
             {| RequestQueue.queue := q;
                RequestQueue.sequenceNumber := nextSeq st |} st))) →
  ∀ st, I st → I (sendNextRequests stdin_write st).
Proof.
  intros Hstep st. remember (length (queueOf st)) as n eqn:Hn.
  revert st Hn. induction n as [|n IH]; intros st Hn HI;
    rewrite sendNextRequests_unfold; destruct (queueOf st) as [|item q] eqn:Hq;
    simpl in *; try done.
  case_decide as Hsz; [|done].
  apply IH.
  - unfold queueOf. rewrite sendRequest_queue. simpl. lia.
  - apply Hstep; [done..|]. by apply size_empty_inv, leibniz_equiv in Hsz.
Qed.

(** The loop stops only when the gate is closed or the queue is empty. *)
Lemma sendNextRequests_done st :
  _pendingResponses (sendNextRequests stdin_write st) ≠ ∅
  ∨ queueOf (sendNextRequests stdin_write st) = [].
Proof.
  remember (length (queueOf st)) as n eqn:Hn.
  revert st Hn. induction n as [|n IH]; intros st Hn;
    rewrite sendNextRequests_unfold; destruct (queueOf st) as [|item q] eqn:Hq;
    simpl in *; try done; try by right.
  case_decide as Hsz.
  - apply IH. unfold queueOf. rewrite sendRequest_queue. simpl. lia.
  - left. intros Hemp. rewrite Hemp, size_empty in Hsz. done.
Qed.

End Frames.

Lemma hist_unique (h : list RequestItem) it1 it2 :
  NoDup (seqOf <$> h) → it1 ∈ h → it2 ∈ h → seqOf it1 = seqOf it2 → it1 = it2.
Proof.
  intros Hnd [i Hi]%list_elem_of_lookup [j Hj]%list_elem_of_lookup Heq.
  assert (i = j) as ->.
  { eapply NoDup_lookup; [exact Hnd | |]; rewrite list_lookup_fmap.
    - by rewrite Hi.
    - rewrite Hj. simpl. by rewrite Heq. }
  congruence.
Qed.

Lemma StronglySorted_sublist {A} (R : relation A) (l1 l2 : list A) :
  l1 `sublist_of` l2 → StronglySorted R l2 → StronglySorted R l1.
Proof.
  induction 1 as [|x l1 l2 Hsub IH|x l1 l2 Hsub IH];
    rewrite ?StronglySorted_cons; [done|..].
  - intros [Hall Hs]. split; [|auto].
    rewrite Forall_forall in *. intros y Hy. apply Hall.
    by eapply elem_of_sublist.
  - intros [_ Hs]. auto.
Qed.

Lemma SInv_frame h st st' :
  _requestQueue st' = _requestQueue st →
  _callbacks st' = _callbacks st →
  _pendingResponses st' = _pendingResponses st →
  SInv h st → SInv h st'.
Proof.
  intros Hq Hc Hp [Ihl Ihn Iqi Iqs Ips Iph Ipl Isy Ias Isn Ian].
  split; unfold queueOf, nextSeq, syncCallbacks, asyncCallbacks in *;
    rewrite ?Hq, ?Hc, ?Hp; done.
Qed.

Lemma SInv_init pipe : SInv [] (newServer pipe).
Proof.
  split; simpl; try done; try (by constructor);
    try (intros ? Hin; by apply elem_of_nil in Hin).
Qed.

(** *** The registry after [CallbackMap.delete] *)

Lemma CallbackMap_delete_sync m k k' :
  NoDup (JsMap.keys (CallbackMap._callbacks m)) →
  JsMap.get (CallbackMap._callbacks (CallbackMap.delete m k)) k'
  = if decide (k = k') then None else JsMap.get (CallbackMap._callbacks m) k'.
Proof.
  intros Hnd. unfold CallbackMap.delete.
  pose proof (JsMap_get_delete_ne (CallbackMap._callbacks m) k k') as Hne.
  pose proof (JsMap_get_delete_eq (CallbackMap._callbacks m) k Hnd) as Heq.
  destruct (JsMap.delete (CallbackMap._callbacks m) k) as [[] cs]; simpl in *;
    case_decide; subst; auto.
Qed.

Lemma CallbackMap_delete_async m k k' :
  NoDup (JsMap.keys (CallbackMap._asyncCallbacks m)) →
  JsMap.get (CallbackMap._asyncCallbacks (CallbackMap.delete m k)) k'
  = if decide (k = k' ∧ JsMap.get (CallbackMap._callbacks m) k = None)
    then None else JsMap.get (CallbackMap._asyncCallbacks m) k'.
Proof.
  intros Hnd. unfold CallbackMap.delete.
  pose proof (JsMap_delete_found (CallbackMap._callbacks m) k) as Hf.
  pose proof (JsMap_get_delete_ne (CallbackMap._asyncCallbacks m) k k') as Hne.
  pose proof (JsMap_get_delete_eq (CallbackMap._asyncCallbacks m) k Hnd) as Heq.
  destruct (JsMap.delete (CallbackMap._callbacks m) k) as [[] cs]; simpl in *.
  - rewrite decide_False; [done|].
    intros [_ Hn]. destruct Hf as [Hf _]. destruct (Hf eq_refl) as [? ?].
    congruence.
  - assert (JsMap.get (CallbackMap._callbacks m) k = None) as Hn.
    { destruct (JsMap.get (CallbackMap._callbacks m) k) eqn:E; [|done].
      destruct Hf as [_ Hf]. by discriminate Hf. }
    case_decide as Hd.
    + destruct Hd as [-> _]. done.
    + apply Hne. intros ->. by apply Hd.
Qed.

Lemma CallbackMap_delete_nodup m k :
  NoDup (JsMap.keys (CallbackMap._callbacks m)) →
  NoDup (JsMap.keys (CallbackMap._asyncCallbacks m)) →
  NoDup (JsMap.keys (CallbackMap._callbacks (CallbackMap.delete m k)))
  ∧ NoDup (JsMap.keys (CallbackMap._asyncCallbacks (CallbackMap.delete m k))).
Proof.
  intros H1 H2. unfold CallbackMap.delete.
  pose proof (JsMap_NoDup_delete (CallbackMap._callbacks m) k H1).
  pose proof (JsMap_NoDup_delete (CallbackMap._asyncCallbacks m) k H2).
  destruct (JsMap.delete (CallbackMap._callbacks m) k) as [[] cs]; simpl in *;
    done.
Qed.

(** Removing callbacks (and pending responses) keeps the invariant. *)
Lemma SInv_shrink h st m p :
  SInv h st →
  (∀ k cb, JsMap.get (CallbackMap._callbacks m) k = Some cb →
           JsMap.get (syncCallbacks st) k = Some cb) →
  (∀ k cb, JsMap.get (CallbackMap._asyncCallbacks m) k = Some cb →
           JsMap.get (asyncCallbacks st) k = Some cb) →
  NoDup (JsMap.keys (CallbackMap._callbacks m)) →
  NoDup (JsMap.keys (CallbackMap._asyncCallbacks m)) →
  p ⊆ _pendingResponses st →
  SInv h (with_pendingResponses p (with_callbacks m st)).
Proof.
  intros [Ihl Ihn Iqi Iqs Ips Iph Ipl Isy Ias Isn Ian] Hs Ha Hn1 Hn2 Hp. split; simpl; try done.
  - etrans; [|exact Ips]. by apply subseteq_size.
  - intros s Hin. apply Iph. set_solver.
  - intros s it Hin. apply Ipl. set_solver.
  - intros k cb Hg. apply Isy. by apply Hs.
  - intros k cb Hg. apply Ias. by apply Ha.
Qed.

Lemma SInv_delete h st k p :
  SInv h st → p ⊆ _pendingResponses st →
  SInv h (with_pendingResponses p
            (with_callbacks (CallbackMap.delete (_callbacks st) k) st)).
Proof.
  intros HI Hp.
  destruct (CallbackMap_delete_nodup (_callbacks st) k) as [? ?];
    [apply HI..|].
  apply SInv_shrink; try done.
  - intros k' cb. rewrite CallbackMap_delete_sync by apply HI.
    by case_decide.
  - intros k' cb. rewrite CallbackMap_delete_async by apply HI.
    by case_decide.
Qed.

Section SendStructure.
Variable stdin_write : Request → option (option string).

Lemma SInv_fetchCallback h st k :
  SInv h st → SInv h (fetchCallback k st).2.
Proof.
  intros HI. unfold fetchCallback, CallbackMap.fetch.
  match goal with |- context [match ?x with Some _ => _ | None => _ end] =>
    destruct x end; simpl.
  - apply (SInv_delete h st k); [done | set_solver].
  - eapply SInv_frame; [..|apply (SInv_delete h st k (_pendingResponses st))];
      done.
Qed.

Lemma SInv_onError h cb e st : SInv h st → SInv h (onError cb e st).
Proof.
  destruct (onError_frame cb e st) as (?&?&?). by apply SInv_frame.
Qed.

Lemma SInv_onSuccess h cb v st : SInv h st → SInv h (onSuccess cb v st).
Proof.
  destruct (onSuccess_frame cb v st) as (?&?&?). by apply SInv_frame.
Qed.

Lemma SInv_emit h es st : SInv h st → SInv h (emit es st).
Proof. by apply SInv_frame. Qed.

Lemma SInv_shift h st item q :
  SInv h st → queueOf st = item :: q →
  SInv h (with_requestQueue
            {| RequestQueue.queue := q;
               RequestQueue.sequenceNumber := nextSeq st |} st)
  ∧ item ∈ h ∧ ∀ it, it ∈ q → seqOf item < seqOf it.
Proof.
  intros [Ihl Ihn Iqi Iqs Ips Iph Ipl Isy Ias Isn Ian] Hq. rewrite Hq in *.
  apply StronglySorted_cons in Iqs as [Hall Hs].
  rewrite Forall_forall in Hall. split_and!.
  - split; simpl; try done.
    + intros it Hit. apply Iqi. by right.
    + intros s it Hs' Hit. apply Ipl; [done | by right].
  - apply Iqi. by left.
  - intros it Hit. apply Hall. by apply (list_elem_of_fmap_2 seqOf).
Qed.

Lemma SInv_sendRequest h st item q :
  SInv h st → queueOf st = item :: q → _pendingResponses st = ∅ →
  SInv h (sendRequest stdin_write item
            (with_requestQueue
               {| RequestQueue.queue := q;
                  RequestQueue.sequenceNumber := nextSeq st |} st)).
Proof.
  intros HI Hq Hp. destruct (SInv_shift h st item q HI Hq) as (H0 & Hin & Hlt).
  unfold sendRequest.
  set (st0 := with_requestQueue _ st) in *.
  set (st1 := (if expectsResponse item && negb (isAsync item) then _ else _)).
  assert (SInv h st1) as H1.
  { unfold st1. destruct (_ && _) eqn:Hflag; [|by apply SInv_emit].
    apply andb_true_iff in Hflag as [? ?%negb_true_iff].
    destruct H0 as [Ihl Ihn Iqi Iqs Ips Iph Ipl Isy Ias Isn Ian]. split; simpl; try done.
    - rewrite Hp, union_empty_r_L, size_singleton. lia.
    - intros s. rewrite Hp, union_empty_r_L, elem_of_singleton. intros ->.
      exists item. by split_and!.
    - intros s it. rewrite Hp, union_empty_r_L, elem_of_singleton.
      intros -> Hit. by apply Hlt. }
  destruct (stdin_write (request item)) as [thrown|].
  - set (st2 := emit _ st1).
    assert (SInv h st2) as H2 by by apply SInv_emit.
    pose proof (SInv_fetchCallback h st2 (seq (request item)) H2) as H3.
    destruct (fetchCallback _ st2) as [[cb|] st3]; simpl in *; [|done].
    by apply SInv_onError.
  - by apply SInv_emit.
Qed.

Lemma SInv_sendNextRequests h st :
  SInv h st → SInv h (sendNextRequests stdin_write st).
Proof.
  apply (sendNextRequests_ind stdin_write (SInv h)).
  intros. by apply SInv_sendRequest.
Qed.

End SendStructure.

(** *** [removeFirst] *)

Lemma removeFirst_sublist l s :
  (RequestQueue.removeFirst l s).2 `sublist_of` l.
Proof.
  induction l as [|it l IH]; simpl; [done|].
  case_decide; simpl; [by apply sublist_cons|].
  destruct (RequestQueue.removeFirst l s); simpl in *. by apply sublist_skip.
Qed.

Lemma removeFirst_other l s it :
  it ∈ l → seqOf it ≠ s → it ∈ (RequestQueue.removeFirst l s).2.
Proof.
  intros Hin Hne. induction l as [|it' l IH]; simpl; [done|].
  apply elem_of_cons in Hin as [->|Hin].
  - rewrite decide_False by done.
    destruct (RequestQueue.removeFirst l s); simpl. by left.
  - case_decide; simpl; [done|].
    destruct (RequestQueue.removeFirst l s); simpl in *. right. auto.
Qed.

Lemma removeFirst_absent l s :
  s ∉ seqOf <$> l → RequestQueue.removeFirst l s = (false, l).
Proof.
  induction l as [|it l IH]; simpl; [done|].
  rewrite not_elem_of_cons. intros [Hne Hin].
  rewrite decide_False by done. by rewrite IH.
Qed.

Lemma removeFirst_found l s :
  (RequestQueue.removeFirst l s).1 = true ↔ s ∈ seqOf <$> l.
Proof.
  induction l as [|it l IH]; simpl.
  - split; [done | by intros ?%elem_of_nil].
  - rewrite elem_of_cons. case_decide; simpl; [naive_solver|].
    destruct (RequestQueue.removeFirst l s); simpl in *.
    rewrite IH. naive_solver.
Qed.

Lemma foldl_onError_frame cause cbs st :
  let st' := foldl (λ s cb, onError cb cause s) st cbs in
  _requestQueue st' = _requestQueue st
  ∧ _callbacks st' = _callbacks st
  ∧ _pendingResponses st' = _pendingResponses st.
Proof.
  revert st. induction cbs as [|cb cbs IH]; intros st; simpl; [done|].
  destruct (IH (onError cb cause st)) as (-> & -> & ->).
  apply onError_frame.
Qed.

Lemma runJobs_frame st :
  _requestQueue (runJobs st) = _requestQueue st
  ∧ _callbacks (runJobs st) = _callbacks st
  ∧ _pendingResponses (runJobs st) = _pendingResponses st
  ∧ promises (runJobs st) = promises st
  ∧ jobs (runJobs st) = [].
Proof.
  unfold runJobs. generalize (jobs st). intros js.
  assert (∀ s, let s' := foldl runJob s js in
    _requestQueue s' = _requestQueue s ∧ _callbacks s' = _callbacks s
    ∧ _pendingResponses s' = _pendingResponses s
    ∧ promises s' = promises s ∧ jobs s' = jobs s) as H.
  { induction js as [|j js IH]; intros s; simpl; [done|].
    destruct (IH (runJob s j)) as (-> & -> & -> & -> & ->).
    unfold runJob. by destruct (promises s !! j.1). }
  apply (H (with_jobs [] st)).
Qed.

Section HandlerStructure.
Variable stdin_write : Request → option (option string).

Lemma SInv_destroyCallbacks h cause st :
  SInv h st → SInv h (destroyCallbacks cause st).
Proof.
  intros HI. unfold destroyCallbacks, CallbackMap.destroy. simpl.
  set (st1 := foldl _ st _). set (st2 := foldl _ st1 _).
  destruct (foldl_onError_frame cause
              (JsMap.values (CallbackMap._callbacks (_callbacks st))) st)
    as (Hq1 & Hc1 & Hp1). fold st1 in Hq1, Hc1, Hp1.
  destruct (foldl_onError_frame cause
              (JsMap.values (CallbackMap._asyncCallbacks (_callbacks st))) st1)
    as (Hq2 & Hc2 & Hp2). fold st2 in Hq2, Hc2, Hp2.
  assert (SInv h st2) as H2.
  { eapply SInv_frame; [..|exact HI]; congruence. }
  eapply SInv_frame;
    [..|apply (SInv_shrink h st2
                 {| CallbackMap._callbacks := [];
                    CallbackMap._asyncCallbacks := [] |}
                 (_pendingResponses st2) H2)];
    simpl; try done; constructor.
Qed.

Lemma SInv_runJobs h st : SInv h st → SInv h (runJobs st).
Proof.
  destruct (runJobs_frame st) as (?&?&?&?&?). by apply SInv_frame.
Qed.

Lemma SInv_dispose h st : SInv h st → SInv h (dispose st).
Proof.
  intros HI. unfold dispose.
  set (st1 := destroyCallbacks _ _).
  assert (SInv h st1) as H1 by by apply SInv_destroyCallbacks, SInv_emit.
  eapply SInv_frame;
    [..|apply (SInv_shrink h st1 (_callbacks st1) ∅ H1)];
    simpl; try done; try apply H1.
Qed.

Lemma SInv_dispatchBody h msg st :
  SInv h st → SInv h (dispatchBody msg st).
Proof.
  intros HI. destruct msg as [r|e|ty]; simpl; [| |done].
  - unfold dispatchResponse.
    pose proof (SInv_fetchCallback h st (request_seq r) HI) as H1.
    destruct (fetchCallback _ st) as [[cb|] st1]; simpl in *; [|done].
    destruct (success r);
      [apply SInv_onSuccess | apply SInv_onError]; by apply SInv_emit.
  - case_decide; [|by apply SInv_emit].
    unfold CallbackMap.fetch.
    assert (SInv h (with_callbacks
              (CallbackMap.delete (_callbacks st) (body_request_seq e)) st))
      as H1.
    { eapply SInv_frame;
        [..|apply (SInv_delete h st (body_request_seq e)
                     (_pendingResponses st) HI)]; done. }
    match goal with |- context [match ?x with Some _ => _ | None => _ end] =>
      destruct x end; [|done].
    by apply SInv_onSuccess, SInv_emit.
Qed.

Lemma SInv_dispatchMessage h msg st :
  SInv h st → SInv h (dispatchMessage stdin_write msg st).
Proof.
  intros HI. unfold dispatchMessage.
  assert (SInv h (sendNextRequests stdin_write (dispatchBody msg st)))
    by by apply SInv_sendNextRequests, SInv_dispatchBody.
  destruct msg; try done. by apply SInv_emit.
Qed.

Lemma SInv_tryCancelBody h s st :
  SInv h st → SInv h (tryCancelBody s st).2.
Proof.
  intros HI. unfold tryCancelBody, RequestQueue.tryCancelPendingRequest.
  fold (queueOf st).
  pose proof (removeFirst_sublist (queueOf st) s) as Hsub.
  destruct (RequestQueue.removeFirst (queueOf st) s) as [b l]; simpl in *.
  assert (SInv h (with_requestQueue
            {| RequestQueue.queue := l;
               RequestQueue.sequenceNumber := nextSeq st |} st)) as H1.
  { destruct HI as [Ihl Ihn Iqi Iqs Ips Iph Ipl Isy Ias Isn Ian]. split; simpl; try done.
    - intros it Hit. apply Iqi. by eapply elem_of_sublist.
    - eapply StronglySorted_sublist; [|done]. by apply fmap_sublist.
    - intros s' it Hs Hit. apply Ipl; [done|].
      by eapply elem_of_sublist. }
  destruct b; simpl; [by apply SInv_emit|].
  destruct (_cancellationPipeName st); by apply SInv_emit.
Qed.

Lemma SInv_tryCancelRequest h s st :
  SInv h st → SInv h (tryCancelRequest s st).2.
Proof.
  intros HI. unfold tryCancelRequest.
  pose proof (SInv_tryCancelBody h s st HI) as H1.
  destruct (tryCancelBody s st) as [b st1]; simpl in *.
  pose proof (SInv_fetchCallback h st1 s H1) as H2.
  destruct (fetchCallback s st1) as [[cb|] st2]; simpl in *; [|done].
  by apply SInv_onError.
Qed.

Lemma SInv_onCancellationRequested h s st :
  SInv h st → SInv h (onCancellationRequested s st).
Proof.
  intros HI. unfold onCancellationRequested.
  destruct (promises st !! s) as [p|]; [|done].
  destruct (p_token p); [|done].
  apply SInv_tryCancelRequest. by eapply SInv_frame; [..|exact HI].
Qed.

Lemma SInv_submit h c a i n st :
  SInv h st →
  SInv (h ++ submittedItem (OpExecute c a i n) st) (submit c a i n st).
Proof.
  intros HI. unfold submit, submittedItem. simpl.
  fold (nextSeq st) (queueOf st).
  set (item := {| request := _; expectsResponse := _; isAsync := _ |}).
  assert (∀ k cb, JsMap.get (syncCallbacks st) k = Some cb → k < nextSeq st)
    as Hsk.
  { intros k cb (_ & it & Hit & <- & _)%(s_sync _ _ HI). by apply HI. }
  assert (∀ k cb, JsMap.get (asyncCallbacks st) k = Some cb → k < nextSeq st)
    as Hak.
  { intros k cb (_ & it & Hit & <- & _)%(s_async _ _ HI). by apply HI. }
  assert (JsMap.get (syncCallbacks st) (nextSeq st) = None) as Hsn.
  { destruct (JsMap.get (syncCallbacks st) (nextSeq st)) eqn:E; [|done].
    apply Hsk in E. lia. }
  assert (JsMap.get (asyncCallbacks st) (nextSeq st) = None) as Han.
  { destruct (JsMap.get (asyncCallbacks st) (nextSeq st)) eqn:E; [|done].
    apply Hak in E. lia. }
  assert (∀ it, it ∈ h ++ [item] →
            seqOf it < nextSeq st + 1 ∧ (it ∈ h ∨ it = item)) as Hh.
  { intros it [Hit| ->%list_elem_of_singleton]%elem_of_app.
    - split; [|by left]. apply (s_hist_lt _ _ HI) in Hit. lia.
    - split; [|by right]. unfold seqOf; simpl. lia. }
  destruct HI as [Ihl Ihn Iqi Iqs Ips Iph Ipl Isy Ias Isn Ian].
  split.
  - intros it Hit. simpl. destruct (info_expectsResult i); simpl;
      by apply Hh.
  - rewrite fmap_app. apply NoDup_app. split_and!; [done| |apply NoDup_singleton].
    intros s (it & Hs & Hit)%list_elem_of_fmap Hs2%list_elem_of_singleton.
    apply Ihl in Hit. unfold seqOf in *; simpl in *. lia.
  - assert (∀ it, it ∈ queueOf st ++ [item] → it ∈ h ++ [item]) as Hq.
    { intros it [Hit| ->%list_elem_of_singleton]%elem_of_app;
        apply elem_of_app; [left; auto | right; by left]. }
    destruct (info_expectsResult i); simpl; exact Hq.
  - assert (StronglySorted Z.lt (seqOf <$> queueOf st ++ [item])) as Hs.
    { rewrite fmap_app. apply StronglySorted_app_2; [|done|repeat constructor].
      intros x1 x2 (it & Hs & Hit)%list_elem_of_fmap Hs2%list_elem_of_singleton.
      apply Iqi, Ihl in Hit. unfold seqOf in *; simpl in *. lia. }
    destruct (info_expectsResult i); simpl; exact Hs.
  - destruct (info_expectsResult i); simpl; done.
  - assert (∀ s, s ∈ _pendingResponses st →
      ∃ it, it ∈ h ++ [item] ∧ seqOf it = s
            ∧ isAsync it = false ∧ expectsResponse it = true) as Hp.
    { intros s (it & ? & ?)%Iph. exists it. split; [|done].
      apply elem_of_app. by left. }
    destruct (info_expectsResult i); simpl; exact Hp.
  - assert (∀ s it, s ∈ _pendingResponses st → it ∈ queueOf st ++ [item] →
                    s < seqOf it) as Hp.
    { intros s it Hs [Hit| ->%list_elem_of_singleton]%elem_of_app; [auto|].
      apply Iph in Hs as (it & Hit & Hs & _).
      apply Ihl in Hit. unfold seqOf in *; simpl in *. lia. }
    destruct (info_expectsResult i); simpl; exact Hp.
  - assert (∀ k cb, JsMap.get (syncCallbacks st) k = Some cb →
      promise cb = k ∧ ∃ it, it ∈ h ++ [item] ∧ seqOf it = k
         ∧ isAsync it = false ∧ expectsResponse it = true) as Hold.
    { intros k cb (? & it & ? & ?)%Isy. split; [done|]. exists it.
      split; [|done]. apply elem_of_app. by left. }
    destruct (info_expectsResult i) eqn:He; simpl; [|exact Hold].
    unfold syncCallbacks, CallbackMap.add; simpl.
    destruct (info_isAsync i) eqn:Ha; simpl; [exact Hold|].
    intros k cb. rewrite JsMap_get_set. case_decide; [|by apply Hold].
    intros [= <-]. subst k. simpl. split; [done|]. exists item.
    split_and!; try done. apply elem_of_app. right. by left.
  - assert (∀ k cb, JsMap.get (asyncCallbacks st) k = Some cb →
      promise cb = k ∧ ∃ it, it ∈ h ++ [item] ∧ seqOf it = k
         ∧ isAsync it = true ∧ expectsResponse it = true) as Hold.
    { intros k cb (? & it & ? & ?)%Ias. split; [done|]. exists it.
      split; [|done]. apply elem_of_app. by left. }
    destruct (info_expectsResult i) eqn:He; simpl; [|exact Hold].
    unfold asyncCallbacks, CallbackMap.add; simpl.
    destruct (info_isAsync i) eqn:Ha; simpl; [|exact Hold].
    intros k cb. rewrite JsMap_get_set. case_decide; [|by apply Hold].
    intros [= <-]. subst k. simpl. split; [done|]. exists item.
    split_and!; try done. apply elem_of_app. right. by left.
  - destruct (info_expectsResult i) eqn:He; simpl; [|done].
    unfold syncCallbacks, CallbackMap.add; simpl.
    destruct (info_isAsync i) eqn:Ha; simpl; [done|].
    fold (syncCallbacks st). rewrite JsMap_set_fresh by done.
    unfold JsMap.keys. rewrite fmap_app. apply NoDup_app.
    split_and!; [done| |apply NoDup_singleton].
    intros k Hk ->%list_elem_of_singleton. simpl in *.
    by apply (JsMap_get_None (syncCallbacks st)) in Hsn.
  - destruct (info_expectsResult i) eqn:He; simpl; [|done].
    unfold asyncCallbacks, CallbackMap.add; simpl.
    destruct (info_isAsync i) eqn:Ha; simpl; [|done].
    fold (asyncCallbacks st). rewrite JsMap_set_fresh by done.
    unfold JsMap.keys. rewrite fmap_app. apply NoDup_app.
    split_and!; [done| |apply NoDup_singleton].
    intros k Hk ->%list_elem_of_singleton. simpl in *.
    by apply (JsMap_get_None (asyncCallbacks st)) in Han.
Qed.

Lemma SInv_handle h op st :
  SInv h st → SInv (h ++ submittedItem op st) (handle stdin_write op st).
Proof.
  intros HI. destruct op; simpl; rewrite ?app_nil_r.
  - by apply SInv_sendNextRequests, SInv_submit.
  - by apply SInv_dispatchMessage.
  - by apply SInv_onCancellationRequested.
  - by apply SInv_destroyCallbacks, SInv_emit.
  - by apply SInv_destroyCallbacks, SInv_emit.
  - by apply SInv_dispose.
Qed.

Lemma SInv_task h op st :
  SInv h st → SInv (h ++ submittedItem op st) (task stdin_write op st).
Proof. intros. by apply SInv_runJobs, SInv_handle. Qed.

Lemma SInv_run ops : ∀ h st,
  SInv h st →
  SInv (h ++ submitted stdin_write ops st) (run stdin_write ops st).
Proof.
  induction ops as [|op ops IH]; intros h st HI; simpl.
  - by rewrite app_nil_r.
  - rewrite app_assoc. apply IH. by apply SInv_task.
Qed.

End HandlerStructure.

(** ** Traces of the actions *)

Lemma onError_trace cb e st :
  trace (onError cb e st) = trace st ++ [EOnError (promise cb) e].
Proof. unfold onError. repeat case_match; done. Qed.

Lemma onSuccess_trace cb v st :
  trace (onSuccess cb v st) = trace st ++ [EOnSuccess (promise cb) v].
Proof. unfold onSuccess. repeat case_match; done. Qed.

Lemma fetchCallback_trace s st : trace (fetchCallback s st).2 = trace st.
Proof. unfold fetchCallback. repeat case_match; simplify_eq/=; done. Qed.

Lemma foldl_onError_trace cause cbs st :
  trace (foldl (λ s cb, onError cb cause s) st cbs)
  = trace st ++ ((λ cb, EOnError (promise cb) cause) <$> cbs).
Proof.
  revert st. induction cbs as [|cb cbs IH]; intros st; simpl.
  - by rewrite app_nil_r.
  - rewrite IH, onError_trace, <- app_assoc. done.
Qed.

Lemma writes_app t1 t2 : writes (t1 ++ t2) = writes t1 ++ writes t2.
Proof. apply omap_app. Qed.

Lemma writes_catchHandler p e : writes (catchHandler p e) = [].
Proof. unfold catchHandler. by destruct (wasCancelled p). Qed.

Lemma runJobs_writes st : writes (trace (runJobs st)) = writes (trace st).
Proof.
  unfold runJobs. generalize (jobs st). intros js.
  change (trace st) with (trace (with_jobs [] st)).
  generalize (with_jobs [] st). induction js as [|j js IH]; intros s; [done|].
  simpl. rewrite IH. unfold runJob. destruct (promises s !! j.1); [|done].
  simpl. by rewrite writes_app, writes_catchHandler, app_nil_r.
Qed.

Lemma WInvX_mono (X X' : Z → Prop) st :
  (∀ k, X k → X' k) → WInvX X st → WInvX X' st.
Proof. intros HX [Hl Hb]. split; [done|]. intros k cb Hg Hn. eauto. Qed.

Lemma WInvX_frame X st st' :
  _requestQueue st' = _requestQueue st →
  _callbacks st' = _callbacks st →
  _pendingResponses st' = _pendingResponses st →
  writes (trace st') = writes (trace st) →
  WInvX X st → WInvX X st'.
Proof.
  intros Hq Hc Hp Ht [Hl Hb].
  split; unfold queueOf, nextSeq, syncCallbacks in *;
    rewrite ?Hq, ?Hc, ?Hp, ?Ht; done.
Qed.

Lemma WInv_init pipe : WInv (newServer pipe).
Proof.
  split; simpl.
  - intros r Hr. by apply elem_of_nil in Hr.
  - intros k cb [=].
Qed.

Lemma WInvX_emit X es st :
  writes es = [] → WInvX X st → WInvX X (emit es st).
Proof.
  intros Hes. apply WInvX_frame; try done.
  simpl. by rewrite writes_app, Hes, app_nil_r.
Qed.

Lemma WInvX_onError X cb e st : WInvX X st → WInvX X (onError cb e st).
Proof.
  destruct (onError_frame cb e st) as (?&?&?).
  apply WInvX_frame; try done.
  by rewrite onError_trace, writes_app, app_nil_r.
Qed.

Lemma WInvX_onSuccess X cb v st : WInvX X st → WInvX X (onSuccess cb v st).
Proof.
  destruct (onSuccess_frame cb v st) as (?&?&?).
  apply WInvX_frame; try done.
  by rewrite onSuccess_trace, writes_app, app_nil_r.
Qed.

Lemma WInvX_runJobs X st : WInvX X st → WInvX X (runJobs st).
Proof.
  destruct (runJobs_frame st) as (?&?&?&?&?).
  apply WInvX_frame; try done. apply runJobs_writes.
Qed.

Lemma WInvX_shrink X st m p :
  WInvX X st →
  (∀ k cb, JsMap.get (CallbackMap._callbacks m) k = Some cb →
           JsMap.get (syncCallbacks st) k = Some cb) →
  (∀ k cb, JsMap.get (CallbackMap._callbacks m) k = Some cb →
           k ∈ _pendingResponses st → k ∈ p) →
  WInvX X (with_pendingResponses p (with_callbacks m st)).
Proof.
  intros [Hl Hb] Hs Hp. split; simpl; [done|].
  intros k cb Hg Hn. destruct (Hb k cb (Hs _ _ Hg) Hn) as [[?|?] ?];
    split; eauto.
Qed.

(** Fetching [k] restores the gate invariant at [k]. *)
Lemma WInvX_fetchCallback X st k :
  NoDup (JsMap.keys (syncCallbacks st)) →
  WInvX X st → WInvX (λ k', X k' ∧ k' ≠ k) (fetchCallback k st).2.
Proof.
  intros Hnd [Hl Hb].
  assert (∀ k' cb,
    JsMap.get (CallbackMap._callbacks (CallbackMap.delete (_callbacks st) k)) k'
      = Some cb →
    k' ≠ k ∧ JsMap.get (syncCallbacks st) k' = Some cb) as Hdel.
  { intros k' cb. rewrite CallbackMap_delete_sync by done.
    case_decide; [done|]. auto. }
  unfold fetchCallback, CallbackMap.fetch.
  match goal with |- context [match ?x with Some _ => _ | None => _ end] =>
    destruct x eqn:Hfetch end; simpl.
  - split; simpl; [done|].
    intros k' cb [Hne Hg]%Hdel HX.
    destruct (Hb k' cb Hg) as [[?|?] ?]; [tauto|..]; split; auto.
    right. set_solver.
  - split; simpl; [done|].
    intros k' cb [Hne Hg]%Hdel HX.
    destruct (Hb k' cb Hg) as [[?|?] ?]; [tauto|..]; split; auto.
Qed.

Section Gate.
Variable stdin_write : Request → option (option string).

Lemma WInv_sendRequest h st item q :
  SInv h st → WInv st → queueOf st = item :: q → _pendingResponses st = ∅ →
  WInv (sendRequest stdin_write item
          (with_requestQueue
             {| RequestQueue.queue := q;
                RequestQueue.sequenceNumber := nextSeq st |} st)).
Proof.
  intros HI [Hl Hb] Hq Hp.
  destruct (SInv_shift h st item q HI Hq) as (H0 & Hin & Hlt).
  unfold sendRequest.
  set (st0 := with_requestQueue _ st) in *.
  set (st1 := (if expectsResponse item && negb (isAsync item) then _ else _)).
  assert (_requestQueue st1 = _requestQueue st0
          ∧ _callbacks st1 = _callbacks st
          ∧ trace st1 = trace st ++ [ETraceRequest (request item)
              (expectsResponse item) (RequestQueue.length (_requestQueue st0))]
          ∧ (∀ k cb, JsMap.get (syncCallbacks st) k = Some cb →
               k ∈ seqOf <$> q ∨ k = seqOf item ∧ k ∈ _pendingResponses st1))
    as (Hq1 & Hc1 & Ht1 & Hreg).
  { unfold st1. destruct (_ && _) eqn:Hflag; simpl; split_and!; try done.
    - intros k cb Hg. destruct (Hb k cb Hg) as [[Hk|Hk] _]; [tauto|..].
      + rewrite Hq, fmap_cons, elem_of_cons in Hk. destruct Hk as [->|?]; [|by left].
        right. split; [done|]. set_solver.
      + rewrite Hp in Hk. by apply elem_of_empty in Hk.
    - intros k cb Hg. destruct (Hb k cb Hg) as [[Hk|Hk] _]; [tauto|..].
      + rewrite Hq, fmap_cons, elem_of_cons in Hk. destruct Hk as [->|?]; [|by left].
        exfalso. apply (s_sync _ _ HI) in Hg as (_ & it & Hit & Hs & Ha & He).
        assert (it = item) as -> by (eapply hist_unique; [apply HI|done..]).
        rewrite He, Ha in Hflag. done.
      + rewrite Hp in Hk. by apply elem_of_empty in Hk. }
  assert (∀ e, writes [e] = [request item] →
            WInv (emit [e] st1)) as Hw.
  { intros e He. split; simpl.
    - unfold nextSeq. simpl. rewrite Hq1. simpl.
      intros r. rewrite Ht1, !writes_app, He. simpl. rewrite app_nil_r.
      intros [Hr| ->%list_elem_of_singleton]%elem_of_app; [by apply Hl|].
      by apply (s_hist_lt _ _ HI) in Hin.
    - unfold syncCallbacks, queueOf. simpl. rewrite Hc1, Hq1. simpl.
      intros k cb Hg _. split.
      + destruct (Hreg k cb Hg) as [?|[_ ?]]; auto.
      + intros r. rewrite Ht1, !writes_app, He. simpl. rewrite app_nil_r.
        intros [Hr| ->%list_elem_of_singleton]%elem_of_app.
        * destruct (Hb k cb Hg) as [_ Hle]; [tauto|]. by apply Hle.
        * destruct (Hreg k cb Hg) as [(it & -> & Hit)%list_elem_of_fmap|[-> _]].
          -- apply Hlt in Hit. unfold seqOf in *. lia.
          -- unfold seqOf. lia. }
  destruct (stdin_write (request item)) as [thrown|]; [|by apply Hw].
  set (st2 := emit _ st1).
  assert (WInv st2) as H2 by by apply Hw.
  assert (NoDup (JsMap.keys (syncCallbacks st2))) as Hnd.
  { unfold st2, syncCallbacks. simpl. rewrite Hc1. apply HI. }
  pose proof (WInvX_fetchCallback _ st2 (seq (request item)) Hnd H2) as H3.
  apply (WInvX_mono _ (λ _, False)) in H3; [|tauto].
  destruct (fetchCallback _ st2) as [[cb|] st3]; simpl in *; [|done].
  by apply WInvX_onError.
Qed.

Lemma WInv_sendNextRequests h st :
  SInv h st → WInv st → WInv (sendNextRequests stdin_write st).
Proof.
  intros HI HW.
  apply (sendNextRequests_ind stdin_write (λ st, SInv h st ∧ WInv st));
    [|done].
  intros st' item q [? ?] ? ?. split.
  - by apply SInv_sendRequest.
  - by eapply WInv_sendRequest.
Qed.

Lemma WInv_destroyCallbacks cause st :
  WInv st → WInv (destroyCallbacks cause st).
Proof.
  intros [Hl Hb]. unfold destroyCallbacks, CallbackMap.destroy. simpl.
  set (st1 := foldl _ st _). set (st2 := foldl _ st1 _).
  destruct (foldl_onError_frame cause
              (JsMap.values (CallbackMap._callbacks (_callbacks st))) st)
    as (Hq1 & Hc1 & Hp1). fold st1 in Hq1, Hc1, Hp1.
  destruct (foldl_onError_frame cause
              (JsMap.values (CallbackMap._asyncCallbacks (_callbacks st))) st1)
    as (Hq2 & Hc2 & Hp2). fold st2 in Hq2, Hc2, Hp2.
  assert (writes (trace st2) = writes (trace st)) as Hw.
  { unfold st2, st1. rewrite !foldl_onError_trace, !writes_app.
    assert (∀ cbs, writes ((λ cb, EOnError (promise cb) cause) <$> cbs) = [])
      as Hn by (intros cbs; induction cbs; done).
    by rewrite !Hn, !app_nil_r. }
  split; simpl.
  - unfold nextSeq. simpl. rewrite Hw, Hq2, Hq1. exact Hl.
  - intros k cb [=].
Qed.

Lemma WInv_dispose st : WInv st → WInv (dispose st).
Proof.
  intros HW. unfold dispose.
  pose proof (WInv_destroyCallbacks (JsError "server disposed")
                (emit [EDisposeSuper] st)) as H1.
  specialize (H1 (WInvX_emit _ [EDisposeSuper] _ eq_refl HW)).
  destruct H1 as [Hl Hb]. split; simpl; [done|].
  intros k cb Hg. exfalso. revert Hg.
  unfold destroyCallbacks, CallbackMap.destroy. simpl. done.
Qed.

Lemma WInv_dispatchBody h msg st :
  SInv h st → WInv st → WInv (dispatchBody msg st).
Proof.
  intros HI HW. destruct msg as [r|e|ty]; simpl; [| |done].
  - unfold dispatchResponse.
    pose proof (WInvX_fetchCallback _ st (request_seq r)
                  (s_sync_nodup _ _ HI) HW) as H1.
    apply (WInvX_mono _ (λ _, False)) in H1; [|tauto].
    destruct (fetchCallback _ st) as [[cb|] st1]; simpl in *; [|done].
    destruct (success r);
      [apply WInvX_onSuccess | apply WInvX_onError]; by apply WInvX_emit.
  - case_decide; [|by apply WInvX_emit].
    unfold CallbackMap.fetch.
    assert (WInv (with_callbacks
              (CallbackMap.delete (_callbacks st) (body_request_seq e)) st))
      as H1.
    { eapply WInvX_frame;
        [..|apply (WInvX_shrink _ st
               (CallbackMap.delete (_callbacks st) (body_request_seq e))
               (_pendingResponses st) HW)]; try done.
      intros k cb. rewrite CallbackMap_delete_sync by apply HI.
      by case_decide. }
    match goal with |- context [match ?x with Some _ => _ | None => _ end] =>
      destruct x end; [|done].
    by apply WInvX_onSuccess, WInvX_emit.
Qed.

Lemma WInv_dispatchMessage h msg st :
  SInv h st → WInv st → WInv (dispatchMessage stdin_write msg st).
Proof.
  intros HI HW. unfold dispatchMessage.
  assert (WInv (sendNextRequests stdin_write (dispatchBody msg st))).
  { eapply WInv_sendNextRequests; [by apply SInv_dispatchBody|].
    by eapply WInv_dispatchBody. }
  destruct msg; try done. by apply WInvX_emit.
Qed.

Lemma WInvX_tryCancelBody s st :
  WInv st → WInvX (λ k, k = s) (tryCancelBody s st).2.
Proof.
  intros [Hl Hb]. unfold tryCancelBody, RequestQueue.tryCancelPendingRequest.
  fold (queueOf st).
  pose proof (λ it, removeFirst_other (queueOf st) s it) as Hoth.
  destruct (RequestQueue.removeFirst (queueOf st) s) as [b l]; simpl in *.
  assert (WInvX (λ k, k = s) (with_requestQueue
            {| RequestQueue.queue := l;
               RequestQueue.sequenceNumber := nextSeq st |} st)) as H1.
  { split; simpl; [done|]. intros k cb Hg Hne.
    destruct (Hb k cb Hg) as [[Hk|Hk] ?]; [tauto|..]; split; auto.
    left. apply list_elem_of_fmap in Hk as (it & -> & Hit).
    apply list_elem_of_fmap_2. by apply Hoth. }
  destruct b; simpl; [by apply WInvX_emit|].
  destruct (_cancellationPipeName st); by apply WInvX_emit.
Qed.

Lemma WInv_tryCancelRequest h s st :
  SInv h st → WInv st → WInv (tryCancelRequest s st).2.
Proof.
  intros HI HW. unfold tryCancelRequest.
  pose proof (SInv_tryCancelBody h s st HI) as H0.
  pose proof (WInvX_tryCancelBody s st HW) as H1.
  destruct (tryCancelBody s st) as [b st1]; simpl in *.
  pose proof (WInvX_fetchCallback _ st1 s (s_sync_nodup _ _ H0) H1) as H2.
  apply (WInvX_mono _ (λ _, False)) in H2; [|naive_solver].
  destruct (fetchCallback s st1) as [[cb|] st2]; simpl in *; [|done].
  by apply WInvX_onError.
Qed.

Lemma WInv_onCancellationRequested h s st :
  SInv h st → WInv st → WInv (onCancellationRequested s st).
Proof.
  intros HI HW. unfold onCancellationRequested.
  destruct (promises st !! s) as [p|]; [|done].
  destruct (p_token p); [|done].
  eapply WInv_tryCancelRequest.
  - by eapply SInv_frame; [..|exact HI].
  - by eapply WInvX_frame; [..|exact HW].
Qed.

Lemma WInv_submit h c a i n st :
  SInv h st → WInv st → WInv (submit c a i n st).
Proof.
  intros HI [Hl Hb]. unfold submit. simpl.
  fold (nextSeq st) (queueOf st).
  split.
  - intros r Hr. assert (seq r < nextSeq st) by
      (apply Hl; by destruct (info_expectsResult i)).
    unfold nextSeq in *. destruct (info_expectsResult i); simpl; lia.
  - assert (∀ k cb, JsMap.get (syncCallbacks st) k = Some cb →
      (k ∈ seqOf <$> (queueOf st ++ [ {|
            request := {| seq := nextSeq st; command := c; arguments := a |};
            expectsResponse := info_expectsResult i;
            isAsync := info_isAsync i |} ]) ∨ k ∈ _pendingResponses st)
      ∧ ∀ r, r ∈ writes (trace st) → seq r ≤ k) as Hold.
    { intros k cb Hg. destruct (Hb k cb Hg) as [[?|?] ?]; [tauto|..];
        split; auto. left. rewrite fmap_app. apply elem_of_app. by left. }
    intros k cb Hg _. revert Hg.
    destruct (info_expectsResult i) eqn:He; simpl; [|by apply Hold].
    unfold syncCallbacks, queueOf, CallbackMap.add. simpl.
    destruct (info_isAsync i) eqn:Ha; simpl; [by apply Hold|].
    rewrite JsMap_get_set. case_decide; [|by apply Hold].
    intros _. subst k. split.
    + left. rewrite fmap_app. apply elem_of_app. right. by left.
    + intros r Hr%Hl. lia.
Qed.

Lemma WInv_handle h op st :
  SInv h st → WInv st → WInv (handle stdin_write op st).
Proof.
  intros HI HW. destruct op; simpl.
  - eapply WInv_sendNextRequests; [by apply SInv_submit|].
    by eapply WInv_submit.
  - by eapply WInv_dispatchMessage.
  - by eapply WInv_onCancellationRequested.
  - by apply WInv_destroyCallbacks, WInvX_emit.
  - by apply WInv_destroyCallbacks, WInvX_emit.
  - by apply WInv_dispose.
Qed.

Lemma WInv_task h op st :
  SInv h st → WInv st → WInv (task stdin_write op st).
Proof. intros. by eapply WInvX_runJobs, WInv_handle. Qed.

Lemma WInv_run ops : ∀ h st,
  SInv h st → WInv st → WInv (run stdin_write ops st).
Proof.
  induction ops as [|op ops IH]; intros h st HI HW; simpl; [done|].
  eapply IH; [by apply SInv_task | by eapply WInv_task].
Qed.

End Gate.

(** ** What the actions write and what they leave in the queue *)

Lemma fetchCallback_spec s st :
  match (fetchCallback s st).1 with
  | Some cb =>
      (JsMap.get (syncCallbacks st) s = Some cb
       ∨ JsMap.get (syncCallbacks st) s = None
         ∧ JsMap.get (asyncCallbacks st) s = Some cb)
      ∧ _pendingResponses (fetchCallback s st).2 = _pendingResponses st ∖ {[s]}
  | None =>
      ¬ registered st s
      ∧ _pendingResponses (fetchCallback s st).2 = _pendingResponses st
  end.
Proof.
  unfold fetchCallback, CallbackMap.fetch, registered.
  fold (syncCallbacks st) (asyncCallbacks st).
  destruct (JsMap.get (syncCallbacks st) s) eqn:E1; simpl; [by auto|].
  destruct (JsMap.get (asyncCallbacks st) s) eqn:E2; simpl; [by auto|].
  split; [|done]. by intros [[? ?]|[? ?]].
Qed.

Lemma fetchCallback_frame s st :
  _requestQueue (fetchCallback s st).2 = _requestQueue st
  ∧ promises (fetchCallback s st).2 = promises st
  ∧ jobs (fetchCallback s st).2 = jobs st
  ∧ trace (fetchCallback s st).2 = trace st
  ∧ _pendingResponses (fetchCallback s st).2 ⊆ _pendingResponses st.
Proof.
  unfold fetchCallback. repeat case_match; simplify_eq/=; split_and!;
    try done; set_solver.
Qed.

Lemma dispatchBody_frame msg st :
  _requestQueue (dispatchBody msg st) = _requestQueue st
  ∧ writes (trace (dispatchBody msg st)) = writes (trace st)
  ∧ _pendingResponses (dispatchBody msg st) ⊆ _pendingResponses st.
Proof.
  destruct msg as [r|e|ty]; simpl; [| |done].
  - unfold dispatchResponse.
    destruct (fetchCallback_frame (request_seq r) st) as (Hq & _ & _ & Ht & Hp).
    destruct (fetchCallback _ st) as [[cb|] st1]; simpl in *; [|by rewrite Ht].
    destruct (success r).
    + destruct (onSuccess_frame cb (Some r)
                  (emit [ETraceResponse r (startTime cb)] st1)) as (-> & _ & ->).
      rewrite onSuccess_trace. simpl. rewrite !writes_app, Ht. simpl.
      by rewrite !app_nil_r.
    + destruct (onError_frame cb (Failed r)
                  (emit [ETraceResponse r (startTime cb)] st1)) as (-> & _ & ->).
      rewrite onError_trace. simpl. rewrite !writes_app, Ht. simpl.
      by rewrite !app_nil_r.
  - case_decide; [|simpl; by rewrite writes_app, app_nil_r].
    unfold CallbackMap.fetch.
    match goal with |- context [match ?x with Some _ => _ | None => _ end] =>
      destruct x as [cb|] end; [|done].
    match goal with |- context [onSuccess cb None ?x] =>
      destruct (onSuccess_frame cb None x) as (-> & _ & ->) end.
    rewrite onSuccess_trace. simpl. rewrite !writes_app. simpl.
    by rewrite !app_nil_r.
Qed.

Lemma tryCancelBody_frame s st :
  writes (trace (tryCancelBody s st).2) = writes (trace st)
  ∧ invoked (trace (tryCancelBody s st).2) = invoked (trace st)
  ∧ _callbacks (tryCancelBody s st).2 = _callbacks st
  ∧ _pendingResponses (tryCancelBody s st).2 = _pendingResponses st
  ∧ queueOf (tryCancelBody s st).2 = (RequestQueue.removeFirst (queueOf st) s).2.
Proof.
  unfold tryCancelBody, RequestQueue.tryCancelPendingRequest, invoked.
  fold (queueOf st).
  destruct (RequestQueue.removeFirst (queueOf st) s) as [[] l]; simpl.
  - rewrite writes_app, omap_app. simpl. by rewrite !app_nil_r.
  - destruct (_cancellationPipeName st); simpl;
      rewrite writes_app, omap_app; simpl; by rewrite !app_nil_r.
Qed.

Lemma destroyCallbacks_writes cause st :
  writes (trace (destroyCallbacks cause st)) = writes (trace st).
Proof.
  unfold destroyCallbacks, CallbackMap.destroy. simpl.
  rewrite !foldl_onError_trace, !writes_app.
  assert (∀ cbs, writes ((λ cb, EOnError (promise cb) cause) <$> cbs) = [])
    as Hn by (intros cbs; induction cbs; done).
  by rewrite !Hn, !app_nil_r.
Qed.

Section Writes.
Variable stdin_write : Request → option (option string).

Lemma sendRequest_writes item st :
  writes (trace (sendRequest stdin_write item st))
  = writes (trace st) ++ [request item].
Proof.
  unfold sendRequest.
  set (st1 := (if expectsResponse item && negb (isAsync item) then _ else _)).
  assert (writes (trace st1) = writes (trace st)) as H1.
  { unfold st1. destruct (_ && _); simpl;
      by rewrite writes_app, app_nil_r. }
  destruct (stdin_write (request item)) as [thrown|]; simpl.
  - destruct (fetchCallback_frame (seq (request item))
                (emit [EWriteThrew (request item) (Thrown thrown)] st1))
      as (_ & _ & _ & Ht & _).
    destruct (fetchCallback _ _) as [[cb|] st2]; simpl in *.
    + rewrite onError_trace, writes_app, Ht. simpl.
      by rewrite writes_app, app_nil_r, H1.
    + rewrite Ht. simpl. by rewrite writes_app, H1.
  - by rewrite writes_app, H1.
Qed.

Lemma sendNextRequests_writes st :
  ∃ rest, writes (trace (sendNextRequests stdin_write st))
          = writes (trace st) ++ rest.
Proof.
  apply (sendNextRequests_ind stdin_write
           (λ st', ∃ rest, writes (trace st') = writes (trace st) ++ rest)).
  - intros st' item q [rest Hr] _ _. exists (rest ++ [request item]).
    rewrite sendRequest_writes. simpl. by rewrite Hr, app_assoc.
  - exists []. by rewrite app_nil_r.
Qed.

(** With the gate open, the head of the queue is the next request written. *)
Lemma sendNextRequests_head st item q :
  queueOf st = item :: q → _pendingResponses st = ∅ →
  ∃ rest, writes (trace (sendNextRequests stdin_write st))
          = writes (trace st) ++ request item :: rest.
Proof.
  intros Hq Hp. rewrite sendNextRequests_unfold, Hq, Hp, size_empty.
  rewrite decide_True by done.
  match goal with |- context [sendNextRequests _ ?x] =>
    destruct (sendNextRequests_writes x) as [rest ->] end.
  rewrite sendRequest_writes. simpl. exists rest.
  by rewrite <- app_assoc.
Qed.

(** With the gate closed nothing is sent. *)
Lemma sendNextRequests_closed st :
  _pendingResponses st ≠ ∅ → sendNextRequests stdin_write st = st.
Proof.
  intros Hp. rewrite sendNextRequests_unfold.
  destruct (queueOf st); [done|]. rewrite decide_False; [done|].
  intros Hs. by apply size_empty_inv, leibniz_equiv in Hs.
Qed.

Lemma tryCancelRequest_frame s st :
  writes (trace (tryCancelRequest s st).2) = writes (trace st)
  ∧ queueOf (tryCancelRequest s st).2
    = (RequestQueue.removeFirst (queueOf st) s).2.
Proof.
  unfold tryCancelRequest.
  destruct (tryCancelBody_frame s st) as (Hw & _ & _ & _ & Hq).
  destruct (tryCancelBody s st) as [b st1]; simpl in *.
  destruct (fetchCallback_frame s st1) as (Hq2 & _ & _ & Ht & _).
  destruct (fetchCallback s st1) as [[cb|] st2]; simpl in *.
  - destruct (onError_frame cb (cancelledError s) st2) as (Hq3 & _).
    unfold queueOf in *. rewrite Hq3, Hq2, Hq.
    by rewrite onError_trace, writes_app, Ht, Hw, app_nil_r.
  - unfold queueOf in *. by rewrite Hq2, Hq, Ht, Hw.
Qed.

(** Only submissions and dispatched messages reach [stdin.write]. *)
Lemma task_no_write op st :
  drains op = false →
  writes (trace (task stdin_write op st)) = writes (trace st).
Proof.
  intros Hop. unfold task. rewrite runJobs_writes.
  destruct op as [c a i n|msg|s|code|err|]; try done; cbn [handle].
  - unfold onCancellationRequested.
    destruct (promises st !! s) as [p|]; [|done].
    destruct (p_token p); [|done].
    by destruct (tryCancelRequest_frame s
         (with_promises (<[s:=markCancelled p]> (promises st)) st)) as [-> _].
  - unfold handleExit. rewrite destroyCallbacks_writes. simpl.
    by rewrite writes_app, app_nil_r.
  - unfold handleError. rewrite destroyCallbacks_writes. simpl.
    by rewrite writes_app, app_nil_r.
  - unfold dispose. cbn [trace with_pendingResponses].
    rewrite destroyCallbacks_writes. simpl.
    by rewrite writes_app, app_nil_r.
Qed.

End Writes.

Lemma gset_at_most_one (X : gset Z) (a x : Z) :
  (size X ≤ 1)%nat → a ∈ X → x ∈ X → x = a.
Proof.
  intros Hs Ha Hx. destruct (decide (x = a)) as [|Hne]; [done|].
  assert (({[a]} ∪ {[x]} : gset Z) ⊆ X) as Hsub by set_solver.
  apply subseteq_size in Hsub.
  rewrite size_union in Hsub by set_solver.
  rewrite !size_singleton in Hsub. lia.
Qed.

Section Reachable.
Variable stdin_write : Request → option (option string).

Lemma run_app ops1 ops2 st :
  run stdin_write (ops1 ++ ops2) st
  = run stdin_write ops2 (run stdin_write ops1 st).
Proof. apply foldl_app. Qed.

Lemma submitted_app ops1 ops2 st :
  submitted stdin_write (ops1 ++ ops2) st
  = submitted stdin_write ops1 st
    ++ submitted stdin_write ops2 (run stdin_write ops1 st).
Proof.
  revert st. induction ops1 as [|op ops1 IH]; intros st; simpl; [done|].
  by rewrite IH, app_assoc.
Qed.

Lemma reachable_SInv pipe ops :
  SInv (submitted stdin_write ops (newServer pipe))
    (run stdin_write ops (newServer pipe)).
Proof. apply (SInv_run stdin_write ops [] _ (SInv_init pipe)). Qed.

Lemma reachable_WInv pipe ops :
  WInv (run stdin_write ops (newServer pipe)).
Proof.
  eapply WInv_run; [apply SInv_init | apply WInv_init].
Qed.

Lemma sendNextRequests_nextSeq st :
  nextSeq (sendNextRequests stdin_write st) = nextSeq st.
Proof.
  apply (sendNextRequests_ind stdin_write (λ st', nextSeq st' = nextSeq st));
    [|done].
  intros st' item q Hn _ _. unfold nextSeq in *.
  by rewrite sendRequest_queue.
Qed.

Lemma task_execute_nextSeq c a i n st :
  nextSeq (task stdin_write (OpExecute c a i n) st) = nextSeq st + 1.
Proof.
  unfold task, handle, executeImpl.
  destruct (runJobs_frame
    (sendNextRequests stdin_write (submit c a i n st))) as (Hq & _).
  unfold nextSeq at 1. rewrite Hq. fold (nextSeq (sendNextRequests stdin_write
    (submit c a i n st))). rewrite sendNextRequests_nextSeq.
  unfold submit, nextSeq. simpl. by destruct (info_expectsResult i).
Qed.

(** A registered outcome of a request submitted as synchronous sits in the
    synchronous partition. *)
Lemma registered_sync h st item :
  SInv h st → item ∈ h → isAsync item = false → registered st (seqOf item) →
  is_Some (JsMap.get (syncCallbacks st) (seqOf item)).
Proof.
  intros HI Hin Ha [Hr|[cb Hr]]; [done|].
  apply (s_async _ _ HI) in Hr as (_ & it & Hit & Hs & Ha' & _).
  assert (it = item) as -> by (eapply hist_unique; [apply HI|done..]).
  congruence.
Qed.

End Reachable.

Section RegistryClaims.
Variable stdin_write : Request → option (option string).

(** C4. In every state reached by tasks (submissions, dispatched messages,
    cancellations, worker exit or error, dispose) from a new server, the set
    [_pendingResponses] has at most one element; each element is the
    sequence number of a request submitted as synchronous and expecting a
    result, and the sequence number of a request submitted as asynchronous
    is never in it. *)
Theorem pendingResponses_at_most_one pipe ops :
  let st := run stdin_write ops (newServer pipe) in
  let h := submitted stdin_write ops (newServer pipe) in
  (size (_pendingResponses st) ≤ 1)%nat
  ∧ (∀ s, s ∈ _pendingResponses st →
       ∃ item, item ∈ h ∧ seqOf item = s
               ∧ isAsync item = false ∧ expectsResponse item = true)
  ∧ (∀ item, item ∈ h → isAsync item = true →
       seqOf item ∉ _pendingResponses st).
Proof.
  intros st h. pose proof (reachable_SInv stdin_write pipe ops) as HI.
  fold st h in HI. split_and!.
  - apply HI.
  - apply HI.
  - intros item Hin Ha Hp.
    apply (s_pend_hist _ _ HI) in Hp as (it & Hit & Hs & Ha' & _).
    assert (it = item) as -> by (eapply hist_unique; [apply HI|done..]).
    congruence.
Qed.

(** C6. Whatever path [tryCancelRequest] takes (the request was still
    queued, the cancellation pipe was signalled, or neither), if a callback
    is registered for [s], then the failure continuation of that callback is
    called with [Cancelled Request s], no other continuation is called, and
    [s] is not in [_pendingResponses] afterwards. *)
Theorem tryCancelRequest_fails_registered st s :
  registered st s →
  ∃ cb es,
    (JsMap.get (syncCallbacks st) s = Some cb
     ∨ JsMap.get (syncCallbacks st) s = None
       ∧ JsMap.get (asyncCallbacks st) s = Some cb)
    ∧ trace (tryCancelRequest s st).2
      = trace st ++ es ++ [EOnError (promise cb) (cancelledError s)]
    ∧ invoked es = []
    ∧ s ∉ _pendingResponses (tryCancelRequest s st).2.
Proof.
  intros Hreg. unfold tryCancelRequest.
  assert (∃ es, trace (tryCancelBody s st).2 = trace st ++ es
                ∧ invoked es = []) as (es & Hes & Hinv).
  { unfold tryCancelBody, RequestQueue.tryCancelPendingRequest.
    destruct (RequestQueue.removeFirst _ s) as [[] l]; simpl; [by eauto|].
    destruct (_cancellationPipeName st); simpl; by eauto. }
  destruct (tryCancelBody_frame s st) as (_ & _ & Hc & Hp & _).
  destruct (tryCancelBody s st) as [b st1]; simpl in *.
  pose proof (fetchCallback_spec s st1) as Hf.
  pose proof (fetchCallback_trace s st1) as Ht.
  unfold registered, syncCallbacks, asyncCallbacks in *.
  destruct (fetchCallback s st1) as [[cb|] st2]; simpl in *.
  - destruct Hf as [Hg Hp2]. exists cb, es. rewrite Hc in Hg. split_and!.
    + done.
    + by rewrite onError_trace, Ht, Hes, app_assoc.
    + done.
    + destruct (onError_frame cb (cancelledError s) st2) as (_ & _ & ->).
      rewrite Hp2. set_solver.
  - destruct Hf as [Hn _]. rewrite Hc in Hn. done.
Qed.

(** C10. [handleExit] and [handleError] leave the queue, the sequence
    counter and [_pendingResponses] as they were and empty both callback
    maps; [dispose] does the same except that it also clears
    [_pendingResponses]. *)
Theorem exit_error_frame st code :
  (_requestQueue (handleExit code st) = _requestQueue st
   ∧ _pendingResponses (handleExit code st) = _pendingResponses st
   ∧ _callbacks (handleExit code st) = CallbackMap.empty)
  ∧ (_requestQueue (handleError code st) = _requestQueue st
     ∧ _pendingResponses (handleError code st) = _pendingResponses st
     ∧ _callbacks (handleError code st) = CallbackMap.empty)
  ∧ (_requestQueue (dispose st) = _requestQueue st
     ∧ _pendingResponses (dispose st) = ∅
     ∧ _callbacks (dispose st) = CallbackMap.empty).
Proof.
  assert (∀ cause s,
    _requestQueue (destroyCallbacks cause s) = _requestQueue s
    ∧ _pendingResponses (destroyCallbacks cause s) = _pendingResponses s
    ∧ _callbacks (destroyCallbacks cause s) = CallbackMap.empty) as Hd.
  { intros cause s. unfold destroyCallbacks, CallbackMap.destroy. simpl.
    set (s1 := foldl _ s _).
    destruct (foldl_onError_frame cause
      (JsMap.values (CallbackMap._asyncCallbacks (_callbacks s))) s1)
      as (-> & _ & ->).
    destruct (foldl_onError_frame cause
      (JsMap.values (CallbackMap._callbacks (_callbacks s))) s)
      as (Hq & _ & Hp). fold s1 in Hq, Hp. by rewrite Hq, Hp. }
  unfold handleExit, handleError, dispose.
  destruct (Hd (JsError "server exited") (emit [EFireExit code] st))
    as (? & ? & ?).
  destruct (Hd (JsError "server errored") (emit [EFireError code] st))
    as (? & ? & ?).
  destruct (Hd (JsError "server disposed") (emit [EDisposeSuper] st))
    as (? & ? & ?).
  split_and!; done.
Qed.

End RegistryClaims.

Lemma failures_app t1 t2 : failures (t1 ++ t2) = failures t1 ++ failures t2.
Proof. apply omap_app. Qed.

Lemma failures_catchHandler p e : failures (catchHandler p e) = [].
Proof. unfold catchHandler. by destruct (wasCancelled p). Qed.

Lemma runJobs_failures st : failures (trace (runJobs st)) = failures (trace st).
Proof.
  unfold runJobs. generalize (jobs st). intros js.
  change (trace st) with (trace (with_jobs [] st)).
  generalize (with_jobs [] st). induction js as [|j js IH]; intros s; [done|].
  simpl. rewrite IH. unfold runJob. destruct (promises s !! j.1); [|done].
  simpl. by rewrite failures_app, failures_catchHandler, app_nil_r.
Qed.

Section DispatchClaims.
Variable stdin_write : Request → option (option string).

Lemma sendRequest_pending item st :
  _pendingResponses (sendRequest stdin_write item st)
  ⊆ {[seqOf item]} ∪ _pendingResponses st.
Proof.
  unfold sendRequest.
  set (st1 := (if expectsResponse item && negb (isAsync item) then _ else _)).
  assert (_pendingResponses st1 ⊆ {[seqOf item]} ∪ _pendingResponses st) as H1.
  { unfold st1, seqOf. destruct (_ && _); simpl; set_solver. }
  destruct (stdin_write (request item)) as [thrown|]; simpl; [|done].
  destruct (fetchCallback_frame (seq (request item))
              (emit [EWriteThrew (request item) (Thrown thrown)] st1))
    as (_ & _ & _ & _ & Hp).
  destruct (fetchCallback _ _) as [[cb|] st2]; simpl in *.
  - destruct (onError_frame cb (Thrown thrown) st2) as (_ & _ & ->). set_solver.
  - set_solver.
Qed.

(** C3 (as the code has it). After every dispatched message the drain loop
    has run: the gate is closed or the queue is empty. When the message is
    an ordinary response for which a callback is still registered, its
    sequence number, if it was in [_pendingResponses] before the dispatch,
    is not in it afterwards. *)
Theorem dispatch_response_clears_pending pipe ops msg :
  let st := run stdin_write ops (newServer pipe) in
  let st' := dispatchMessage stdin_write msg st in
  (_pendingResponses st' ≠ ∅ ∨ queueOf st' = [])
  ∧ (∀ r, msg = Msg_response r →
       registered st (request_seq r) →
       request_seq r ∈ _pendingResponses st →
       request_seq r ∉ _pendingResponses st').
Proof.
  intros st st'. split.
  - unfold st', dispatchMessage.
    pose proof (sendNextRequests_done stdin_write (dispatchBody msg st)) as Hd.
    by destruct msg.
  - intros r -> Hreg Hin.
    pose proof (reachable_SInv stdin_write pipe ops) as HI. fold st in HI.
    set (s := request_seq r) in *.
    unfold st', dispatchMessage.
    apply (sendNextRequests_ind stdin_write
             (λ x, (s ∉ _pendingResponses x)
                   ∧ (∀ it, it ∈ queueOf x → s < seqOf it))).
    + intros x item q [Hs Hq] Hx _. split.
      * intros Hin'%sendRequest_pending. simpl in Hin'.
        apply elem_of_union in Hin' as [->%elem_of_singleton|?]; [|done].
        specialize (Hq item). rewrite Hx in Hq.
        specialize (Hq (list_elem_of_here _ _)). lia.
      * unfold queueOf. rewrite sendRequest_queue. simpl.
        intros it Hit. apply Hq. rewrite Hx. by right.
    + simpl. unfold dispatchResponse. fold s.
      pose proof (fetchCallback_spec s st) as Hf.
      destruct (fetchCallback_frame s st) as (Hq & _).
      destruct (fetchCallback s st) as [[cb|] st1]; simpl in *;
        [|by destruct Hf].
      destruct Hf as [_ Hp].
      assert (s ∉ _pendingResponses st1) by (rewrite Hp; set_solver).
      assert (∀ it, it ∈ RequestQueue.queue (_requestQueue st1) → s < seqOf it).
      { rewrite Hq. intros it Hit. by apply (s_pend_lt _ _ HI). }
      unfold queueOf.
      destruct (success r).
      * destruct (onSuccess_frame cb (Some r)
          (emit [ETraceResponse r (startTime cb)] st1)) as (-> & _ & ->).
        done.
      * destruct (onError_frame cb (Failed r)
          (emit [ETraceResponse r (startTime cb)] st1)) as (-> & _ & ->).
        done.
Qed.

(** C9. [tryCancelRequest] writes nothing to the worker and leaves every
    queued item other than the cancelled one in the queue. When it cancels
    the request in flight ([_pendingResponses] was [{s}] and a callback was
    registered for [s]), the gate is open afterwards and the queue is as
    before: the queued items stay unsent. The next [executeImpl] or
    [dispatchMessage] then writes the head of the queue first, and no task
    of another kind (cancellation, worker exit or error, dispose) writes
    anything. *)
Theorem cancel_does_not_drain st s :
  let st' := (tryCancelRequest s st).2 in
  writes (trace st') = writes (trace st)
  ∧ (∀ it, it ∈ queueOf st → seqOf it ≠ s → it ∈ queueOf st')
  ∧ (registered st s → _pendingResponses st = {[s]} →
     s ∉ seqOf <$> queueOf st →
     _pendingResponses st' = ∅ ∧ queueOf st' = queueOf st
     ∧ ∀ item q, queueOf st = item :: q →
         (∀ c a i n, ∃ rest,
            writes (trace (executeImpl stdin_write c a i n st'))
            = writes (trace st) ++ request item :: rest)
         ∧ (∀ msg, ∃ rest,
              writes (trace (dispatchMessage stdin_write msg st'))
              = writes (trace st) ++ request item :: rest))
  ∧ (∀ op st0, drains op = false →
       writes (trace (task stdin_write op st0)) = writes (trace st0)).
Proof.
  intros st'. destruct (tryCancelRequest_frame s st) as [Hw Hq].
  fold st' in Hw, Hq. split_and!; [done|..|apply task_no_write].
  - intros it Hit Hne. rewrite Hq. by apply removeFirst_other.
  - intros Hreg Hp Hnq.
    assert (queueOf st' = queueOf st) as Hq'
      by (by rewrite Hq, removeFirst_absent).
    assert (_pendingResponses st' = ∅) as Hp'.
    { unfold st', tryCancelRequest.
      destruct (tryCancelBody_frame s st) as (_ & _ & Hc & Hp1 & _).
      destruct (tryCancelBody s st) as [b st1]; simpl in *.
      pose proof (fetchCallback_spec s st1) as Hf.
      unfold registered, syncCallbacks, asyncCallbacks in *.
      destruct (fetchCallback s st1) as [[cb|] st2]; simpl in *.
      - destruct Hf as [_ Hp2].
        destruct (onError_frame cb (cancelledError s) st2) as (_ & _ & ->).
        rewrite Hp2, Hp1, Hp. set_solver.
      - destruct Hf as [Hn _]. rewrite Hc in Hn. done. }
    split_and!; [done..|].
    intros item q Hitem. rewrite <- Hw. split.
    + intros c a i n. unfold executeImpl.
      assert (writes (trace (submit c a i n st')) = writes (trace st')) as <-
        by (unfold submit; simpl; by destruct (info_expectsResult i)).
      apply (sendNextRequests_head _ _ item
               (q ++ [ {| request := {| seq := nextSeq st'; command := c;
                                        arguments := a |};
                          expectsResponse := info_expectsResult i;
                          isAsync := info_isAsync i |} ])).
      * unfold submit, queueOf in *. simpl. rewrite Hq', Hitem.
        by destruct (info_expectsResult i).
      * unfold submit. simpl. by destruct (info_expectsResult i).
    + intros msg. unfold dispatchMessage.
      destruct (dispatchBody_frame msg st') as (Hq2 & Hw2 & Hp2).
      assert (∃ rest,
        writes (trace (sendNextRequests stdin_write (dispatchBody msg st')))
        = writes (trace st') ++ request item :: rest) as [rest Hrest].
      { rewrite <- Hw2. apply (sendNextRequests_head _ _ item q).
        - unfold queueOf in *. by rewrite Hq2, Hq'.
        - rewrite Hp' in Hp2. set_solver. }
      exists rest. destruct msg; try done.
      simpl. by rewrite writes_app, app_nil_r.
Qed.

(** C2 (as the code has it). When the worker exits while two synchronous
    requests are queued and unsent and one asynchronous request is in
    flight, these being the three registered outcomes, the three failure
    continuations are called with [server exited] and both callback maps are
    empty afterwards; the queue is left as it was, the two unsent requests
    stay queued. *)
Theorem exit_fails_all_keeps_queue st A B cbA cbB c cbC code :
  queueOf st = [A; B] →
  syncCallbacks st = [(seqOf A, cbA); (seqOf B, cbB)] →
  asyncCallbacks st = [(c, cbC)] →
  let st' := task stdin_write (OpExit code) st in
  failures (trace st')
  = failures (trace st)
    ++ [ (promise cbA, JsError "server exited");
         (promise cbB, JsError "server exited");
         (promise cbC, JsError "server exited") ]
  ∧ syncCallbacks st' = [] ∧ asyncCallbacks st' = []
  ∧ queueOf st' = [A; B].
Proof.
  intros Hq Hs Ha st'. unfold st', task, handle.
  destruct (runJobs_frame (handleExit code st)) as (Hq1 & Hc1 & _).
  unfold syncCallbacks, asyncCallbacks, queueOf in *.
  rewrite runJobs_failures, Hq1, Hc1.
  unfold handleExit, destroyCallbacks, CallbackMap.destroy. simpl.
  rewrite Hs, Ha. simpl. split_and!; try done.
  - rewrite !onError_trace. simpl. rewrite !failures_app. simpl.
    by rewrite <- !app_assoc.
  - by destruct (onError_frame cbC (JsError "server exited")
      (onError cbB (JsError "server exited")
        (onError cbA (JsError "server exited") (emit [EFireExit code] st))))
      as (-> & _), (onError_frame cbB (JsError "server exited")
        (onError cbA (JsError "server exited") (emit [EFireExit code] st)))
      as (-> & _), (onError_frame cbA (JsError "server exited")
        (emit [EFireExit code] st)) as (-> & _).
Qed.

End DispatchClaims.

(** C8. The error text of the scenario is parsed into its message and its
    stack; the raw text and the command are kept. *)
Theorem parseErrorText_bad_arg command :
  let errorText :=
    "Error processing request. Bad arg" +:+ Js.newline +:+ "at foo()" in
  let properties := parseErrorText (Some errorText) command in
  properties !! "message" = Some "Bad arg"
  ∧ properties !! "stack" = Some "at foo()"
  ∧ properties !! "errorText" = Some errorText
  ∧ properties !! "command" = Some command
  ∧ size properties = 4%nat.
Proof. vm_compute. done. Qed.

Section OrderClaims.
Variable stdin_write : Request → option (option string).

(** C5. Let a synchronous request A that expects a result be submitted in
    any reachable state, and a request B right after it. In every state
    reached later in which the outcome of A is still registered, B has not
    been written to the worker. If A is then in flight and B still queued,
    dispatching A's response (successful or failed) writes B next. *)
Theorem sync_requests_one_at_a_time
    pipe ops0 cA aA tokA nowA cB aB infoB nowB ops :
  let st0 := run stdin_write ops0 (newServer pipe) in
  let a := nextSeq st0 in
  let opA :=
    OpExecute cA aA {| info_isAsync := false; info_token := tokA;
                       info_expectsResult := true |} nowA in
  let opB := OpExecute cB aB infoB nowB in
  let reqB := {| seq := a + 1; command := cB; arguments := aB |} in
  let st := run stdin_write (ops0 ++ opA :: opB :: ops) (newServer pipe) in
  (registered st a → reqB ∉ writes (trace st))
  ∧ (registered st a → a ∈ _pendingResponses st →
     reqB ∈ request <$> queueOf st →
     ∀ r, request_seq r = a →
       ∃ rest,
         writes (trace (task stdin_write (OpData (Msg_response r)) st))
         = writes (trace st) ++ reqB :: rest).
Proof.
  intros st0 a opA opB reqB st.
  pose proof (reachable_SInv stdin_write pipe (ops0 ++ opA :: opB :: ops)) as HI.
  pose proof (reachable_WInv stdin_write pipe (ops0 ++ opA :: opB :: ops)) as HW.
  fold st in HI, HW.
  set (h := submitted stdin_write (ops0 ++ opA :: opB :: ops) (newServer pipe))
    in *.
  set (itemA := {| request := {| seq := a; command := cA; arguments := aA |};
                   expectsResponse := true; isAsync := false |}).
  set (itemB := {| request := reqB;
                   expectsResponse := info_expectsResult infoB;
                   isAsync := info_isAsync infoB |}).
  assert (itemA ∈ h ∧ itemB ∈ h) as [HA HB].
  { unfold h. rewrite submitted_app. fold st0. simpl.
    unfold opA. rewrite task_execute_nextSeq. fold a.
    split; apply elem_of_app; right.
    - by left.
    - right. by left. }
  assert (registered st a → ∀ r, r ∈ writes (trace st) → seq r ≤ a) as Hblock.
  { intros Hreg.
    destruct (registered_sync h st itemA HI HA eq_refl Hreg) as [cb Hcb].
    intros r Hr. destruct (w_block _ _ HW a cb Hcb) as [_ Hle]; [tauto|].
    by apply Hle. }
  split.
  - intros Hreg Hin. apply (Hblock Hreg) in Hin. simpl in Hin. lia.
  - intros Hreg Hin HqB r Hr.
    apply list_elem_of_fmap in HqB as (itB & HreqB & HitB).
    (* the head of the queue is B *)
    destruct (queueOf st) as [|hd q] eqn:Hq; [by apply elem_of_nil in HitB|].
    assert (hd = itB) as ->.
    { eapply hist_unique; [apply HI|apply HI; rewrite Hq; by left|
                           apply HI; by rewrite Hq|].
      assert (a < seqOf hd)
        by (apply (s_pend_lt _ _ HI); [done|rewrite Hq; by left]).
      assert (seqOf itB = a + 1) by (unfold seqOf; by rewrite <- HreqB).
      pose proof (s_queue_sorted _ _ HI) as Hs. rewrite Hq, fmap_cons in Hs.
      apply StronglySorted_cons in Hs as [Hall _].
      rewrite Forall_forall in Hall.
      apply elem_of_cons in HitB as [->|HitB]; [done|].
      specialize (Hall (seqOf itB) (list_elem_of_fmap_2 seqOf _ _ HitB)).
      lia. }
    (* dispatching the response opens the gate *)
    unfold task, handle, dispatchMessage. rewrite runJobs_writes.
    destruct (dispatchBody_frame (Msg_response r) st) as (Hq1 & Hw1 & Hp1).
    rewrite <- Hw1, HreqB.
    apply (sendNextRequests_head _ _ itB q).
    + unfold queueOf in *. by rewrite Hq1.
    + simpl. unfold dispatchResponse. rewrite Hr.
      pose proof (fetchCallback_spec a st) as Hf.
      destruct (fetchCallback a st) as [[cb|] st1]; simpl in *;
        [|by destruct Hf].
      destruct Hf as [_ Hp].
      assert (_pendingResponses st1 = ∅) as Hemp.
      { rewrite Hp. apply set_eq. intros x.
        rewrite elem_of_difference, elem_of_singleton.
        split; [|by intros ?%elem_of_empty].
        intros [Hx Hne]. destruct Hne.
        eapply gset_at_most_one; [apply HI|done..]. }
      destruct (success r).
      * by destruct (onSuccess_frame cb (Some r)
          (emit [ETraceResponse r (startTime cb)] st1)) as (_ & _ & ->).
      * by destruct (onError_frame cb (Failed r)
          (emit [ETraceResponse r (startTime cb)] st1)) as (_ & _ & ->).
Qed.

End OrderClaims.

Lemma invoked_app t1 t2 : invoked (t1 ++ t2) = invoked t1 ++ invoked t2.
Proof. apply omap_app. Qed.

Lemma invocations_app k t1 t2 :
  invocations k (t1 ++ t2) = (invocations k t1 + invocations k t2)%nat.
Proof. unfold invocations. by rewrite invoked_app, count_occ_app. Qed.

Lemma invocations_snoc k tr e :
  invocations k (tr ++ [e])
  = (invocations k tr
     + if decide (invocationOf e = Some k) then 1 else 0)%nat.
Proof.
  rewrite invocations_app. f_equal. unfold invocations, invoked. simpl.
  destruct (invocationOf e) as [k'|]; simpl.
  - destruct (Z.eq_dec k' k); case_decide; congruence.
  - done.
Qed.

Lemma invocations_silent k es : invoked es = [] → invocations k es = 0%nat.
Proof. unfold invocations. by intros ->. Qed.

Lemma telemetry_app t1 t2 :
  telemetry (t1 ++ t2) = telemetry t1 ++ telemetry t2.
Proof. apply omap_app. Qed.

Lemma failures_silent es : invoked es = [] → failures es = [].
Proof.
  unfold invoked, failures. induction es as [|e es IH]; [done|].
  simpl. destruct e; simpl; try done; auto.
Qed.

Lemma invoked_catchHandler p e : invoked (catchHandler p e) = [].
Proof. unfold catchHandler. by destruct (wasCancelled p). Qed.

Lemma failure_invoked k e tr : (k, e) ∈ failures tr → (0 < invocations k tr)%nat.
Proof.
  unfold failures, invocations, invoked.
  intros (x & Hx & Hf)%list_elem_of_omap.
  apply count_occ_In, list_elem_of_In, list_elem_of_omap.
  exists x. split; [done|]. destruct x; simplify_eq/=; done.
Qed.

Lemma commandOf_elem h it :
  NoDup (seqOf <$> h) → it ∈ h → commandOf h (seqOf it) = command (request it).
Proof.
  intros Hnd Hin. unfold commandOf.
  destruct (List.find _ h) as [it'|] eqn:Hf.
  - apply find_some in Hf as [Hin'%list_elem_of_In Heq%bool_decide_eq_true].
    by rewrite (hist_unique h it' it Hnd Hin' Hin Heq).
  - apply list_elem_of_In in Hin.
    pose proof (find_none _ _ Hf _ Hin) as Hn. simpl in Hn.
    by rewrite bool_decide_eq_false in Hn.
Qed.

Lemma commandOf_app h item k :
  k ∈ seqOf <$> h → commandOf (h ++ [item]) k = commandOf h k.
Proof.
  intros (it & -> & Hin)%list_elem_of_fmap. unfold commandOf.
  induction h as [|x h IH]; [by apply elem_of_nil in Hin|].
  simpl. case_bool_decide; [done|].
  apply IH. apply elem_of_cons in Hin as [->|?]; done.
Qed.

Lemma PInv_init pipe : PInv (λ _, False) [] (newServer pipe).
Proof.
  split; simpl; try done.
  - intros k p. by rewrite lookup_empty.
  - intros it Hin. by apply elem_of_nil in Hin.
  - intros j Hin. by apply elem_of_nil in Hin.
Qed.

Lemma PInv_ext (R R' : Z → Prop) h st :
  (∀ k, R k ↔ R' k) → PInv R h st → PInv R' h st.
Proof.
  intros HR [Hr Hd Hn Hc Ha Hj Ht]. split; try done.
  - intros k Hk. apply Hr. by apply HR.
  - intros k Hk. apply Hd. by rewrite HR.
Qed.

(** Steps that call no continuation and report nothing. *)
Lemma PInv_frame R h st st' es :
  promises st' = promises st → jobs st' = jobs st →
  trace st' = trace st ++ es → invoked es = [] → telemetry es = [] →
  PInv R h st → PInv R h st'.
Proof.
  intros Hp Hj Ht Hi Hte [Hr Hd Hn Hc Ha Hjb Htl].
  assert (∀ k, invocations k (trace st') = invocations k (trace st)) as Hinv.
  { intros k. rewrite Ht, invocations_app, (invocations_silent k es) by done.
    lia. }
  split; rewrite ?Hp, ?Hj; try done.
  - intros k Hk. rewrite Hinv. by apply Hr.
  - intros k Hk Hs. rewrite Hinv. by apply Hd.
  - intros k Hk. rewrite Hinv. by apply Hn.
  - unfold pendingEffects. rewrite Hp, Hj, Ht, telemetry_app, failures_app.
    rewrite Hte, (failures_silent es Hi), !app_nil_r. exact Htl.
Qed.

Lemma PInv_emit R h es st :
  invoked es = [] → telemetry es = [] → PInv R h st → PInv R h (emit es st).
Proof. intros Hi Ht. by apply (PInv_frame R h st (emit es st) es). Qed.

Lemma pendingEffects_settle st k p s js :
  promises st !! k = Some p →
  (js ≫= λ j, match <[k := settle s p]> (promises st) !! j.1 with
               | Some p => catchHandler p j.2
               | None => []
               end)
  = js ≫= λ j, match promises st !! j.1 with
                | Some p => catchHandler p j.2
                | None => []
                end.
Proof.
  intros Hp. induction js as [|j js IH]; [done|].
  rewrite !bind_cons, IH. f_equal.
  destruct (decide (j.1 = k)) as [->|Hne].
  - by rewrite lookup_insert_eq, Hp.
  - by rewrite lookup_insert_ne.
Qed.

Lemma PInv_onSuccess R h cb v st :
  PInv R h st → R (promise cb) →
  PInv (λ k, R k ∧ k ≠ promise cb) h (onSuccess cb v st).
Proof.
  intros [Hr Hd Hn Hc Ha Hj Ht] HR.
  destruct (Hr _ HR) as (Hz & p & Hp & Hs & Hw).
  assert (∀ k, invocations k (trace (onSuccess cb v st))
    = (invocations k (trace st) + if decide (k = promise cb) then 1 else 0)%nat)
    as Hinv.
  { intros k. rewrite onSuccess_trace, invocations_snoc. simpl.
    repeat case_decide; congruence. }
  unfold onSuccess in *. simpl in *. rewrite Hp, Hs in *. simpl in *.
  split; simpl.
  - intros k [Hk Hne]. rewrite Hinv, decide_False, Nat.add_0_r by done.
    rewrite lookup_insert_ne by done. by apply Hr.
  - intros k Hk Hs'. rewrite Hinv. case_decide as Hkk.
    + subst k. by rewrite Hz.
    + rewrite lookup_insert_ne in Hs' by done. rewrite Hd; [lia| |done].
      intros HRk. by apply Hk.
  - intros k Hk. rewrite Hinv.
    destruct (decide (k = promise cb)) as [->|Hne].
    + by rewrite lookup_insert_eq in Hk.
    + rewrite lookup_insert_ne in Hk by done. rewrite Hn by done. lia.
  - intros k p'. destruct (decide (k = promise cb)) as [->|Hne].
    + rewrite lookup_insert_eq. intros [= <-]. exact (Hc _ _ Hp).
    + rewrite lookup_insert_ne by done. apply Hc.
  - intros it Hit He. destruct (decide (seqOf it = promise cb)) as [->|Hne].
    + by rewrite lookup_insert_eq.
    + rewrite lookup_insert_ne by done. by apply Ha.
  - intros j Hin. destruct (decide (j.1 = promise cb)) as [->|Hne].
    + by rewrite lookup_insert_eq.
    + rewrite lookup_insert_ne by done. by apply Hj.
  - unfold pendingEffects. simpl.
    rewrite (pendingEffects_settle st _ p) by done.
    rewrite telemetry_app, failures_app. simpl. rewrite !app_nil_r.
    exact Ht.
Qed.

Lemma PInv_onError R h cb e st :
  NoDup (seqOf <$> h) →
  PInv R h st → R (promise cb) → e ≠ cancelledError (promise cb) →
  PInv (λ k, R k ∧ k ≠ promise cb) h (onError cb e st).
Proof.
  intros Hnd [Hr Hd Hn Hc Ha Hj Ht] HR Hne.
  destruct (Hr _ HR) as (Hz & p & Hp & Hs & Hw).
  assert (∀ k, invocations k (trace (onError cb e st))
    = (invocations k (trace st) + if decide (k = promise cb) then 1 else 0)%nat)
    as Hinv.
  { intros k. rewrite onError_trace, invocations_snoc. simpl.
    repeat case_decide; congruence. }
  unfold onError in *. simpl in *. rewrite Hp, Hs in *. simpl in *.
  split; simpl.
  - intros k [Hk Hnk]. rewrite Hinv, decide_False, Nat.add_0_r by done.
    rewrite lookup_insert_ne by done. by apply Hr.
  - intros k Hk Hs'. rewrite Hinv. case_decide as Hkk.
    + subst k. by rewrite Hz.
    + rewrite lookup_insert_ne in Hs' by done. rewrite Hd; [lia| |done].
      intros HRk. by apply Hk.
  - intros k Hk. rewrite Hinv.
    destruct (decide (k = promise cb)) as [->|Hnk].
    + by rewrite lookup_insert_eq in Hk.
    + rewrite lookup_insert_ne in Hk by done. rewrite Hn by done. lia.
  - intros k p'. destruct (decide (k = promise cb)) as [->|Hnk].
    + rewrite lookup_insert_eq. intros [= <-]. exact (Hc _ _ Hp).
    + rewrite lookup_insert_ne by done. apply Hc.
  - intros it Hit He. destruct (decide (seqOf it = promise cb)) as [->|Hnk].
    + by rewrite lookup_insert_eq.
    + rewrite lookup_insert_ne by done. by apply Ha.
  - intros j [Hin| ->%list_elem_of_singleton]%elem_of_app.
    + destruct (decide (j.1 = promise cb)) as [->|Hnk].
      * by rewrite lookup_insert_eq.
      * rewrite lookup_insert_ne by done. by apply Hj.
    + simpl. by rewrite lookup_insert_eq.
  - unfold pendingEffects. simpl. rewrite bind_app.
    rewrite (pendingEffects_settle st _ p) by done.
    simpl. rewrite lookup_insert_eq. unfold catchHandler at 2. simpl.
    rewrite Hw, app_nil_r.
    rewrite !telemetry_app, failures_app. simpl.
    rewrite filter_app, fmap_app, app_assoc, app_nil_r. f_equal; [exact Ht|].
    rewrite filter_cons_True by done. rewrite filter_nil. simpl.
    unfold diagnosticRecord. simpl. do 2 f_equal.
    destruct (Hc _ _ Hp) as (it & Hit & <- & _ & <-).
    by rewrite commandOf_elem.
Qed.

Lemma runJobs_trace st : trace (runJobs st) = trace st ++ pendingEffects st.
Proof.
  unfold runJobs, pendingEffects. generalize (jobs st). intros js.
  change (trace st) with (trace (with_jobs [] st)).
  change (promises st) with (promises (with_jobs [] st)).
  generalize (with_jobs [] st). induction js as [|j js IH]; intros s.
  - simpl. by rewrite app_nil_r.
  - rewrite bind_cons. simpl. rewrite IH. unfold runJob.
    destruct (promises s !! j.1) eqn:Hp; simpl; [|done].
    by rewrite <- app_assoc.
Qed.

Lemma invoked_pendingEffects st : invoked (pendingEffects st) = [].
Proof.
  unfold pendingEffects. induction (jobs st) as [|j js IH]; [done|].
  rewrite bind_cons, invoked_app, IH.
  destruct (promises st !! j.1); [|done].
  by rewrite invoked_catchHandler.
Qed.

Lemma PInv_runJobs R h st : PInv R h st → PInv R h (runJobs st).
Proof.
  intros [Hr Hd Hn Hc Ha Hj Ht].
  destruct (runJobs_frame st) as (_ & _ & _ & Hp & Hjb).
  pose proof (runJobs_trace st) as Htr.
  pose proof (invoked_pendingEffects st) as Hi.
  assert (∀ k, invocations k (trace (runJobs st)) = invocations k (trace st))
    as Hinv.
  { intros k. rewrite Htr, invocations_app.
    rewrite (invocations_silent k (pendingEffects st)) by done. lia. }
  split; rewrite ?Hp, ?Hjb; try done.
  - intros k Hk. rewrite Hinv. by apply Hr.
  - intros k Hk Hs. rewrite Hinv. by apply Hd.
  - intros k Hk. rewrite Hinv. by apply Hn.
  - intros j Hin. by apply elem_of_nil in Hin.
  - unfold pendingEffects at 1. rewrite Hjb. simpl.
    rewrite Htr, telemetry_app, failures_app, (failures_silent _ Hi).
    by rewrite !app_nil_r.
Qed.

(** ** The registry after a fetch *)

Lemma registered_frame st st' k :
  _callbacks st' = _callbacks st → registered st' k ↔ registered st k.
Proof. unfold registered, syncCallbacks, asyncCallbacks. by intros ->. Qed.

Lemma registered_delete h st st1 k :
  SInv h st →
  _callbacks st1 = CallbackMap.delete (_callbacks st) k →
  ∀ k', registered st1 k' ↔ registered st k' ∧ k' ≠ k.
Proof.
  intros HI Hc k'. unfold registered, syncCallbacks, asyncCallbacks.
  rewrite Hc, CallbackMap_delete_sync, CallbackMap_delete_async by apply HI.
  fold (syncCallbacks st) (asyncCallbacks st).
  destruct (decide (k = k')) as [<-|Hne].
  - split; [|tauto]. intros [[? [=]]|Ha]; exfalso.
    case_decide as Hd; [by destruct Ha|].
    destruct Ha as [cb2 Ha].
    destruct (JsMap.get (syncCallbacks st) k) as [cb1|] eqn:Hs; [|tauto].
    apply (s_sync _ _ HI) in Hs as (_ & it1 & Hi1 & Hs1 & Ha1 & _).
    apply (s_async _ _ HI) in Ha as (_ & it2 & Hi2 & Hs2 & Ha2 & _).
    assert (it1 = it2) as -> by (eapply hist_unique; [apply HI|done..|congruence]).
    congruence.
  - rewrite (decide_False (P := k = k' ∧ _)) by tauto. naive_solver.
Qed.

Lemma fetch_registered h st k :
  SInv h st →
  match (CallbackMap.fetch (_callbacks st) k).1 with
  | Some cb => promise cb = k ∧ registered st k
  | None => ¬ registered st k
  end.
Proof.
  intros HI. unfold CallbackMap.fetch, registered. simpl.
  fold (syncCallbacks st) (asyncCallbacks st).
  destruct (JsMap.get (syncCallbacks st) k) as [cb|] eqn:Hs.
  - split; [|by eauto]. by apply (s_sync _ _ HI) in Hs as [? _].
  - destruct (JsMap.get (asyncCallbacks st) k) as [cb|] eqn:Ha.
    + split; [|by eauto]. by apply (s_async _ _ HI) in Ha as [? _].
    + by intros [[? ?]|[? ?]].
Qed.

Lemma fetchCallback_callbacks s st :
  (fetchCallback s st).1 = (CallbackMap.fetch (_callbacks st) s).1
  ∧ _callbacks (fetchCallback s st).2 = CallbackMap.delete (_callbacks st) s.
Proof.
  unfold fetchCallback, CallbackMap.fetch.
  match goal with |- context [match ?x with Some _ => _ | None => _ end] =>
    destruct x end; done.
Qed.

Lemma PInv_view R h st st' : view st' = view st → PInv R h st → PInv R h st'.
Proof.
  unfold view. intros [= Hp Hj Ht].
  apply (PInv_frame R h st st' []); rewrite ?app_nil_r; done.
Qed.

Lemma onError_view cb e st st' :
  view st' = view st → view (onError cb e st') = view (onError cb e st).
Proof.
  unfold view at 1. intros [= Hp Hj Ht]. unfold view, onError. simpl.
  rewrite Hp. destruct (promises st !! promise cb) as [p|];
    [destruct (p_state p)|]; simpl; by rewrite ?Hp, ?Hj, ?Ht.
Qed.

Lemma onSuccess_view cb v st st' :
  view st' = view st → view (onSuccess cb v st') = view (onSuccess cb v st).
Proof.
  unfold view at 1. intros [= Hp Hj Ht]. unfold view, onSuccess. simpl.
  rewrite Hp. destruct (promises st !! promise cb) as [p|];
    [destruct (p_state p)|]; simpl; by rewrite ?Hp, ?Hj, ?Ht.
Qed.

Lemma fetchCallback_view s st : view (fetchCallback s st).2 = view st.
Proof.
  destruct (fetchCallback_frame s st) as (_ & Hp & Hj & Ht & _).
  unfold view. by rewrite Hp, Hj, Ht.
Qed.

(** Resolving the outcome fetched for [k]. *)
Lemma PInv_resolved h st st1 k :
  SInv h st → PInv (registered st) h st1 →
  _callbacks st1 = CallbackMap.delete (_callbacks st) k →
  match (CallbackMap.fetch (_callbacks st) k).1 with
  | Some cb =>
      (∀ e, e ≠ cancelledError k →
         PInv (registered (onError cb e st1)) h (onError cb e st1))
      ∧ (∀ v, PInv (registered (onSuccess cb v st1)) h (onSuccess cb v st1))
  | None => PInv (registered st1) h st1
  end.
Proof.
  intros HI HP Hc.
  pose proof (registered_delete h st st1 k HI Hc) as Hreg.
  pose proof (fetch_registered h st k HI) as Hf.
  destruct (CallbackMap.fetch (_callbacks st) k).1 as [cb|].
  - destruct Hf as [<- Hk]. split.
    + intros e He.
      apply (PInv_ext (λ k', registered st k' ∧ k' ≠ promise cb));
        [|apply PInv_onError; [apply HI|done..]].
      intros k'. destruct (onError_frame cb e st1) as (_ & Hc' & _).
      rewrite (registered_frame st1 _ k' Hc'). symmetry. apply Hreg.
    + intros v.
      apply (PInv_ext (λ k', registered st k' ∧ k' ≠ promise cb));
        [|by apply PInv_onSuccess].
      intros k'. destruct (onSuccess_frame cb v st1) as (_ & Hc' & _).
      rewrite (registered_frame st1 _ k' Hc'). symmetry. apply Hreg.
  - apply (PInv_ext (registered st)); [|exact HP]. intros k'. rewrite Hreg.
    split; [|tauto]. intros Hk'. split; [done|]. by intros ->.
Qed.

Lemma cancelledError_not_thrown m k : Thrown m ≠ cancelledError k.
Proof. done. Qed.

Lemma cancelledError_not_failed r k : Failed r ≠ cancelledError k.
Proof. done. Qed.

Lemma teardownCause_not_cancelled cause k :
  teardownCause cause → cause ≠ cancelledError k.
Proof.
  unfold cancelledError. intros [->|[->| ->]]; intros [= H]; discriminate H.
Qed.

Section DrainOutcomes.
Variable stdin_write : Request → option (option string).

Lemma PInv_dispatchBody h msg st :
  SInv h st → PInv (registered st) h st →
  PInv (registered (dispatchBody msg st)) h (dispatchBody msg st).
Proof.
  intros HI HP. destruct msg as [r|e|ty]; unfold dispatchBody; [| |done].
  - unfold dispatchResponse.
    destruct (fetchCallback_callbacks (request_seq r) st) as [Hf Hc].
    pose proof (fetchCallback_view (request_seq r) st) as Hv.
    destruct (fetchCallback (request_seq r) st) as [ocb st1].
    cbn [fst snd] in *.
    apply (PInv_view _ _ _ _ Hv) in HP.
    destruct ocb as [cb|].
    + pose proof (PInv_resolved h st
        (emit [ETraceResponse r (startTime cb)] st1) (request_seq r) HI)
        as Hres.
      rewrite <- Hf in Hres. destruct Hres as [Herr Hsucc]; [|done|].
      { by apply PInv_emit. }
      destruct (success r); [apply Hsucc | apply Herr].
      apply cancelledError_not_failed.
    + pose proof (PInv_resolved h st st1 (request_seq r) HI HP Hc) as Hres.
      by rewrite <- Hf in Hres.
  - case_decide; [|by apply PInv_emit].
    destruct (CallbackMap.fetch (_callbacks st) (body_request_seq e))
      as [ocb m] eqn:Hfetch.
    assert (ocb = (CallbackMap.fetch (_callbacks st) (body_request_seq e)).1)
      as Hf by by rewrite Hfetch.
    assert (m = CallbackMap.delete (_callbacks st) (body_request_seq e))
      as -> by (unfold CallbackMap.fetch in Hfetch; congruence).
    set (st1 := with_callbacks _ st).
    destruct ocb as [cb|].
    + pose proof (PInv_resolved h st
        (emit [ETraceRequestCompleted (body_request_seq e) (startTime cb)] st1)
        (body_request_seq e) HI) as Hres.
      rewrite <- Hf in Hres. destruct Hres as [_ Hsucc]; [|done|].
      { apply PInv_emit; [done..|]. by apply (PInv_view _ _ st). }
      apply Hsucc.
    + pose proof (PInv_resolved h st st1 (body_request_seq e) HI
                    (PInv_view _ _ st st1 eq_refl HP) eq_refl) as Hres.
      by rewrite <- Hf in Hres.
Qed.

Lemma PInv_sendRequest h st item q :
  SInv h st → PInv (registered st) h st →
  let st' := sendRequest stdin_write item
               (with_requestQueue
                  {| RequestQueue.queue := q;
                     RequestQueue.sequenceNumber := nextSeq st |} st) in
  PInv (registered st') h st'.
Proof.
  intros HI HP. unfold sendRequest.
  set (st0 := with_requestQueue _ st).
  set (st1 := (if expectsResponse item && negb (isAsync item) then _ else _)).
  assert (_callbacks st1 = _callbacks st ∧ promises st1 = promises st
          ∧ jobs st1 = jobs st
          ∧ trace st1 = trace st ++ [ETraceRequest (request item)
              (expectsResponse item) (RequestQueue.length (_requestQueue st0))])
    as (Hc1 & Hp1 & Hj1 & Ht1).
  { unfold st1. by destruct (_ && _). }
  destruct (stdin_write (request item)) as [thrown|]; simpl.
  - set (st2 := emit _ st1).
    destruct (fetchCallback_callbacks (seq (request item)) st2) as [Hf Hc].
    pose proof (fetchCallback_view (seq (request item)) st2) as Hv.
    destruct (fetchCallback (seq (request item)) st2) as [ocb st3].
    cbn [fst snd] in *.
    assert (PInv (registered st) h st3) as H3.
    { unfold view in Hv. injection Hv as Hp3 Hj3 Ht3.
      apply (PInv_frame _ h st st3
               [ETraceRequest (request item) (expectsResponse item)
                  (RequestQueue.length (_requestQueue st0));
                EWriteThrew (request item) (Thrown thrown)]);
        [rewrite Hp3; exact Hp1 | rewrite Hj3; exact Hj1 | | done..].
      rewrite Ht3. unfold st2. simpl. by rewrite Ht1, <- app_assoc. }
    assert (_callbacks st2 = _callbacks st) as Hc2 by done.
    rewrite Hc2 in Hf, Hc.
    pose proof (PInv_resolved h st st3 (seq (request item)) HI H3 Hc) as Hres.
    rewrite <- Hf in Hres. destruct ocb; [|done].
    apply Hres, cancelledError_not_thrown.
  - apply (PInv_ext (registered st)).
    + intros k. symmetry. by apply registered_frame.
    + apply (PInv_frame _ h st _
               [ETraceRequest (request item) (expectsResponse item)
                  (RequestQueue.length (_requestQueue st0));
                EWrite (request item)]); try done.
      simpl. by rewrite Ht1, <- app_assoc.
Qed.

Lemma PInv_sendNextRequests h st :
  SInv h st → PInv (registered st) h st →
  PInv (registered (sendNextRequests stdin_write st)) h
    (sendNextRequests stdin_write st).
Proof.
  intros HI HP.
  apply (sendNextRequests_ind stdin_write
           (λ st, SInv h st ∧ PInv (registered st) h st)); [|done].
  intros st' item q [? ?] ? ?. split.
  - by apply SInv_sendRequest.
  - by apply PInv_sendRequest.
Qed.

End DrainOutcomes.

Lemma tryCancelBody_trace s st :
  ∃ es, trace (tryCancelBody s st).2 = trace st ++ es
        ∧ invoked es = [] ∧ telemetry es = []
        ∧ promises (tryCancelBody s st).2 = promises st
        ∧ jobs (tryCancelBody s st).2 = jobs st.
Proof.
  unfold tryCancelBody, RequestQueue.tryCancelPendingRequest.
  destruct (RequestQueue.removeFirst _ s) as [[] l]; simpl; [by eauto 10|].
  destruct (_cancellationPipeName st); simpl; by eauto 10.
Qed.

Lemma PInv_foldl_onError h cause :
  (∀ k, cause ≠ cancelledError k) → NoDup (seqOf <$> h) →
  ∀ cbs (R : Z → Prop) st,
    NoDup (promise <$> cbs) → (∀ cb, cb ∈ cbs → R (promise cb)) →
    PInv R h st →
    PInv (λ k, R k ∧ k ∉ promise <$> cbs) h
      (foldl (λ s cb, onError cb cause s) st cbs).
Proof.
  intros Hcause Hnd. induction cbs as [|cb cbs IH]; intros R st Hn HR HP.
  - simpl. apply (PInv_ext R); [|done]. intros k. split; [|tauto].
    intros Hk. split; [done|]. by intros ?%elem_of_nil.
  - simpl in *. apply NoDup_cons in Hn as [Hcb Hn].
    apply (PInv_ext (λ k, (R k ∧ k ≠ promise cb) ∧ k ∉ promise <$> cbs)).
    { intros k. rewrite not_elem_of_cons. tauto. }
    apply IH; [done| |].
    + intros cb' Hin. split; [apply HR; by right|].
      intros Heq. apply Hcb. rewrite <- Heq. by apply list_elem_of_fmap_2.
    + apply PInv_onError; [done..| |done]. apply HR. by left.
Qed.

Lemma values_promise_keys (m : list (Z * CallbackItem)) :
  (∀ k cb, (k, cb) ∈ m → promise cb = k) →
  promise <$> JsMap.values m = JsMap.keys m.
Proof.
  unfold JsMap.values, JsMap.keys. induction m as [|[k cb] m IH]; [done|].
  intros H. simpl. f_equal.
  - apply H. by left.
  - apply IH. intros k' cb' Hin. apply H. by right.
Qed.

Lemma PInv_markCancelled R h st st2 s p es :
  PInv R h st → jobs st = [] → ¬ R s → promises st !! s = Some p →
  promises st2 = <[s := markCancelled p]> (promises st) → jobs st2 = [] →
  trace st2 = trace st ++ es → invoked es = [] → telemetry es = [] →
  PInv R h st2.
Proof.
  intros [Hr Hd Hn Hc Ha Hj Ht] Hj0 HR Hp Hp2 Hj2 Ht2 Hi Hte.
  assert (∀ k, invocations k (trace st2) = invocations k (trace st)) as Hinv.
  { intros k. rewrite Ht2, invocations_app, (invocations_silent k es) by done.
    lia. }
  split; rewrite ?Hp2, ?Hj2.
  - intros k Hk. rewrite Hinv.
    rewrite lookup_insert_ne by (intros ->; done). by apply Hr.
  - intros k Hk Hs. rewrite Hinv. apply Hd; [done|].
    destruct (decide (k = s)) as [->|Hne]; [by rewrite Hp|].
    by rewrite lookup_insert_ne in Hs.
  - intros k Hk. rewrite Hinv. apply Hn.
    destruct (decide (k = s)) as [->|Hne].
    + by rewrite lookup_insert_eq in Hk.
    + by rewrite lookup_insert_ne in Hk.
  - intros k p'. destruct (decide (k = s)) as [->|Hne].
    + rewrite lookup_insert_eq. intros [= <-]. exact (Hc _ _ Hp).
    + rewrite lookup_insert_ne by done. apply Hc.
  - intros it Hit He. destruct (decide (seqOf it = s)) as [->|Hne].
    + by rewrite lookup_insert_eq.
    + rewrite lookup_insert_ne by done. by apply Ha.
  - intros j Hin. by apply elem_of_nil in Hin.
  - unfold pendingEffects in *. rewrite Hj2, Hj0 in *. simpl in *.
    rewrite Ht2, telemetry_app, failures_app, Hte, (failures_silent es Hi).
    by rewrite !app_nil_r in *.
Qed.

Lemma PInv_onError_cancelled R h st st2 cb p es :
  PInv R h st → jobs st = [] → R (promise cb) →
  promises st !! promise cb = Some p →
  promises st2 = <[promise cb := markCancelled p]> (promises st) →
  jobs st2 = [] →
  trace st2 = trace st ++ es → invoked es = [] → telemetry es = [] →
  PInv (λ k, R k ∧ k ≠ promise cb) h
    (onError cb (cancelledError (promise cb)) st2).
Proof.
  intros [Hr Hd Hn Hc Ha Hj Ht] Hj0 HR Hp Hp2 Hj2 Ht2 Hi Hte.
  destruct (Hr _ HR) as (Hz & p0 & Hp0 & Hs & Hw).
  assert (p0 = p) as -> by congruence.
  set (s := promise cb) in *.
  assert (∀ k, invocations k
                 (trace (onError cb (cancelledError s) st2))
    = (invocations k (trace st) + if decide (k = s) then 1 else 0)%nat)
    as Hinv.
  { intros k. rewrite onError_trace, invocations_snoc, Ht2, invocations_app.
    rewrite (invocations_silent k es) by done. simpl. fold s.
    repeat case_decide; try congruence; lia. }
  assert (promises (onError cb (cancelledError s) st2)
            = <[s := settle (Rejected (cancelledError s)) (markCancelled p)]>
                (promises st)
          ∧ jobs (onError cb (cancelledError s) st2)
            = [(s, cancelledError s)]
          ∧ trace (onError cb (cancelledError s) st2)
            = trace st ++ es ++ [EOnError s (cancelledError s)])
    as (Hp' & Hj' & Ht').
  { rewrite onError_trace, Ht2, <- app_assoc. unfold onError. simpl. fold s.
    rewrite Hp2, lookup_insert_eq. simpl. rewrite Hs. simpl.
    rewrite ?Hp2, Hj2, insert_insert_eq. done. }
  split; rewrite ?Hp', ?Hj'.
  - intros k [Hk Hnk]. rewrite Hinv, decide_False by done.
    rewrite lookup_insert_ne by done. rewrite Nat.add_0_r. by apply Hr.
  - intros k Hk Hs'. rewrite Hinv. case_decide as Hkk.
    + subst k. by rewrite Hz.
    + rewrite lookup_insert_ne in Hs' by done. rewrite Hd; [lia| |done].
      intros HRk. by apply Hk.
  - intros k Hk. rewrite Hinv.
    destruct (decide (k = s)) as [->|Hnk].
    + by rewrite lookup_insert_eq in Hk.
    + rewrite lookup_insert_ne in Hk by done. rewrite Hn by done. lia.
  - intros k p'. destruct (decide (k = s)) as [->|Hnk].
    + rewrite lookup_insert_eq. intros [= <-]. exact (Hc _ _ Hp).
    + rewrite lookup_insert_ne by done. apply Hc.
  - intros it Hit He. destruct (decide (seqOf it = s)) as [->|Hnk].
    + by rewrite lookup_insert_eq.
    + rewrite lookup_insert_ne by done. by apply Ha.
  - intros j ->%list_elem_of_singleton. simpl. by rewrite lookup_insert_eq.
  - unfold pendingEffects in *. rewrite Hp', Hj', Ht'. rewrite Hj0 in Ht.
    simpl in *. rewrite lookup_insert_eq. unfold catchHandler. simpl.
    rewrite !telemetry_app, !failures_app, Hte, (failures_silent es Hi).
    simpl. rewrite !app_nil_r in *.
    rewrite filter_app, filter_cons_False, filter_nil, app_nil_r; [done|].
    unfold notCancellation. simpl. by intros H.
Qed.

Lemma pendingEffects_insert_fresh st k p js :
  (∀ j, j ∈ js → is_Some (promises st !! j.1)) → promises st !! k = None →
  (js ≫= λ j, match <[k := p]> (promises st) !! j.1 with
               | Some p => catchHandler p j.2
               | None => []
               end)
  = js ≫= λ j, match promises st !! j.1 with
                | Some p => catchHandler p j.2
                | None => []
                end.
Proof.
  intros Hjs Hk. induction js as [|j js IH]; [done|].
  rewrite !bind_cons, IH by (intros; apply Hjs; by right). f_equal.
  rewrite lookup_insert_ne; [done|]. intros Heq.
  destruct (Hjs j) as [? Hs]; [by left|]. rewrite <- Heq in Hs. congruence.
Qed.

Section HandlerOutcomes.
Variable stdin_write : Request → option (option string).

Lemma destroyCallbacks_view cause st :
  view (destroyCallbacks cause st)
  = view (foldl (λ s cb, onError cb cause s) st
            (JsMap.values (syncCallbacks st)
             ++ JsMap.values (asyncCallbacks st)))
  ∧ _callbacks (destroyCallbacks cause st) = CallbackMap.empty.
Proof.
  unfold destroyCallbacks, CallbackMap.destroy. simpl.
  by rewrite foldl_app.
Qed.

Lemma PInv_destroyCallbacks h cause st :
  teardownCause cause → SInv h st → PInv (registered st) h st →
  PInv (registered (destroyCallbacks cause st)) h (destroyCallbacks cause st).
Proof.
  intros Hcause HI HP.
  destruct (destroyCallbacks_view cause st) as [Hv Hc].
  set (cbs := JsMap.values (syncCallbacks st)
              ++ JsMap.values (asyncCallbacks st)) in *.
  assert (promise <$> cbs
          = JsMap.keys (syncCallbacks st) ++ JsMap.keys (asyncCallbacks st))
    as Hkeys.
  { unfold cbs. rewrite fmap_app. f_equal; apply values_promise_keys.
    - intros k cb Hin. apply (JsMap_elem_get _ _ _ (s_sync_nodup _ _ HI)) in Hin.
      by apply (s_sync _ _ HI) in Hin as [? _].
    - intros k cb Hin.
      apply (JsMap_elem_get _ _ _ (s_async_nodup _ _ HI)) in Hin.
      by apply (s_async _ _ HI) in Hin as [? _]. }
  assert (∀ k, registered st k ↔ k ∈ promise <$> cbs) as Hreg.
  { intros k. rewrite Hkeys, elem_of_app, <- !JsMap_get_is_Some. done. }
  apply (PInv_view _ _ _ _ Hv).
  apply (PInv_ext (λ k, registered st k ∧ k ∉ promise <$> cbs)).
  { intros k. unfold registered at 2, syncCallbacks, asyncCallbacks.
    rewrite Hc. simpl. rewrite Hreg. split; [tauto|].
    by intros [[? [=]]|[? [=]]]. }
  apply PInv_foldl_onError; try done.
  - intros k. by apply teardownCause_not_cancelled.
  - apply HI.
  - rewrite Hkeys. apply NoDup_app. split_and!; [apply HI| |apply HI].
    intros k [cb1 Hs]%JsMap_get_is_Some [cb2 Ha]%JsMap_get_is_Some.
    apply (s_sync _ _ HI) in Hs as (_ & it1 & Hi1 & Hs1 & Ha1 & _).
    apply (s_async _ _ HI) in Ha as (_ & it2 & Hi2 & Hs2 & Ha2 & _).
    assert (it1 = it2) as ->
      by (eapply hist_unique; [apply HI|done..|congruence]).
    congruence.
  - intros cb Hin. apply Hreg. by apply list_elem_of_fmap_2.
Qed.

Lemma PInv_onCancellationRequested h s st :
  SInv h st → PInv (registered st) h st → jobs st = [] →
  PInv (registered (onCancellationRequested s st)) h
    (onCancellationRequested s st).
Proof.
  intros HI HP Hj. unfold onCancellationRequested.
  destruct (promises st !! s) as [p|] eqn:Hp; [|done].
  destruct (p_token p); [|done].
  set (st0 := with_promises _ st). unfold tryCancelRequest.
  destruct (tryCancelBody_trace s st0) as (es & Ht & Hi & Hte & Hp1 & Hj1).
  destruct (tryCancelBody_frame s st0) as (_ & _ & Hc1 & _).
  destruct (tryCancelBody s st0) as [b st1]. cbn [fst snd] in *.
  destruct (fetchCallback_callbacks s st1) as [Hf Hc].
  pose proof (fetchCallback_view s st1) as Hv.
  destruct (fetchCallback s st1) as [ocb st2]. cbn [fst snd] in *.
  rewrite Hc1 in Hf, Hc. change (_callbacks st0) with (_callbacks st) in Hf, Hc.
  unfold view in Hv. injection Hv as Hp2 Hj2 Ht2.
  pose proof (registered_delete h st st2 s HI Hc) as Hreg.
  pose proof (fetch_registered h st s HI) as Hfr. rewrite <- Hf in Hfr.
  destruct ocb as [cb|]; cbn [snd].
  - destruct Hfr as [<- Hk].
    apply (PInv_ext (λ k', registered st k' ∧ k' ≠ promise cb)).
    { intros k'.
      destruct (onError_frame cb (cancelledError (promise cb)) st2)
        as (_ & Hc' & _).
      rewrite (registered_frame st2 _ k' Hc'). symmetry. apply Hreg. }
    eapply (PInv_onError_cancelled _ h st st2 cb p es); try done.
    + by rewrite Hp2, Hp1.
    + by rewrite Hj2, Hj1.
    + by rewrite Ht2, Ht.
  - apply (PInv_ext (registered st)).
    { intros k'. rewrite Hreg. split; [|tauto]. intros Hk'.
      split; [done|]. by intros ->. }
    eapply (PInv_markCancelled _ h st st2 s p es); try done.
    + by rewrite Hp2, Hp1.
    + by rewrite Hj2, Hj1.
    + by rewrite Ht2, Ht.
Qed.

Lemma PInv_submit h c a i n st :
  SInv h st → PInv (registered st) h st →
  PInv (registered (submit c a i n st))
    (h ++ submittedItem (OpExecute c a i n) st) (submit c a i n st).
Proof.
  intros HI [Hr Hd Hn Hc Ha Hj Ht]. unfold submittedItem.
  set (item := {| request := _; expectsResponse := _; isAsync := _ |}).
  assert (promises st !! nextSeq st = None) as Hfresh.
  { destruct (promises st !! nextSeq st) as [p|] eqn:Hp; [|done].
    apply Hc in Hp as (it & Hit & Hs & _).
    apply (s_hist_lt _ _ HI) in Hit. lia. }
  assert (¬ registered st (nextSeq st)) as Hnreg.
  { intros (_ & p & Hp & _)%Hr. congruence. }
  assert (∀ f, f ∈ filter notCancellation (failures (trace st)) →
               diagnosticRecord (h ++ [item]) f = diagnosticRecord h f) as Hdiag.
  { intros [k e] [_ Hf%failure_invoked]%list_elem_of_filter.
    unfold diagnosticRecord. simpl. f_equal. f_equal.
    apply commandOf_app.
    destruct (promises st !! k) as [p|] eqn:Hp.
    - apply Hc in Hp as (it & Hit & <- & _). by apply list_elem_of_fmap_2.
    - apply Hn in Hp. lia. }
  assert (∀ k p, promises st !! k = Some p →
    ∃ it, it ∈ h ++ [item] ∧ seqOf it = k ∧ expectsResponse it = true
          ∧ command (request it) = p_command p) as Hc'.
  { intros k p (it & ? & ?)%Hc. exists it. split; [|done].
    apply elem_of_app. by left. }
  assert (promises (submit c a i n st)
          = (if info_expectsResult i
             then <[nextSeq st := {| p_command := c;
                                     p_token := info_token i;
                                     wasCancelled := false;
                                     p_state := Pending |}]> (promises st)
             else promises st)
          ∧ jobs (submit c a i n st) = jobs st
          ∧ trace (submit c a i n st) = trace st
          ∧ ∀ k, registered (submit c a i n st) k
                 ↔ registered st k
                   ∨ info_expectsResult i = true ∧ k = nextSeq st)
    as (Hp' & Hj' & Ht' & Hreg).
  { unfold submit, registered, syncCallbacks, asyncCallbacks.
    simpl. fold (nextSeq st).
    destruct (info_expectsResult i); simpl;
      [|split_and!; [done..|naive_solver]].
    split_and!; [done..|]. intros k. unfold CallbackMap.add.
    destruct (info_isAsync i); simpl; rewrite JsMap_get_set;
      case_decide; subst; naive_solver. }
  split; rewrite ?Hj', ?Ht'.
  - intros k [Hk|[He ->]]%Hreg.
    + destruct (Hr k Hk) as (Hz & p & Hp & ?). split; [done|].
      exists p. split; [|done]. rewrite Hp'.
      destruct (info_expectsResult i); [|done].
      rewrite lookup_insert_ne; [done|]. intros <-. congruence.
    + split; [by apply Hn|]. rewrite Hp', He, lookup_insert_eq. by eauto.
  - intros k Hk Hs. apply Hd.
    + intros HR. apply Hk, Hreg. by left.
    + rewrite Hp' in Hs. destruct (info_expectsResult i) eqn:He; [|done].
      rewrite lookup_insert_ne in Hs; [done|]. intros <-.
      apply Hk, Hreg. by right.
  - intros k Hk. apply Hn. rewrite Hp' in Hk.
    destruct (info_expectsResult i); [|done].
    destruct (decide (nextSeq st = k)) as [<-|Hne].
    + by rewrite lookup_insert_eq in Hk.
    + by rewrite lookup_insert_ne in Hk.
  - intros k p. rewrite Hp'. destruct (info_expectsResult i) eqn:He;
      [|by apply Hc'].
    destruct (decide (nextSeq st = k)) as [<-|Hne].
    + rewrite lookup_insert_eq. intros [= <-]. exists item.
      split_and!; try done. apply elem_of_app. right. by left.
    + rewrite lookup_insert_ne by done. by apply Hc'.
  - intros it [Hit| ->%list_elem_of_singleton]%elem_of_app He; rewrite Hp'.
    + destruct (info_expectsResult i); [|by apply Ha].
      destruct (decide (nextSeq st = seqOf it)) as [<-|Hne].
      * by rewrite lookup_insert_eq.
      * rewrite lookup_insert_ne by done. by apply Ha.
    + simpl in He. rewrite He. unfold seqOf. simpl.
      by rewrite lookup_insert_eq.
  - intros j Hin. rewrite Hp'. destruct (info_expectsResult i); [|by apply Hj].
    destruct (decide (nextSeq st = j.1)) as [<-|Hne].
    + by rewrite lookup_insert_eq.
    + rewrite lookup_insert_ne by done. by apply Hj.
  - rewrite (Forall_fmap_ext_1 _ (diagnosticRecord h))
      by (by apply Forall_forall).
    rewrite <- Ht. f_equal. f_equal. unfold pendingEffects.
    rewrite Hj', Hp'. destruct (info_expectsResult i); [|done].
    by apply pendingEffects_insert_fresh.
Qed.

End HandlerOutcomes.

Section OutcomeClaims.
Variable stdin_write : Request → option (option string).

Lemma PInv_handle h op st :
  SInv h st → PInv (registered st) h st → jobs st = [] →
  PInv (registered (handle stdin_write op st)) (h ++ submittedItem op st)
    (handle stdin_write op st).
Proof.
  intros HI HP Hj. destruct op as [c a i n|msg|s|code|err|];
    cbn [handle submittedItem]; rewrite ?app_nil_r.
  - apply PInv_sendNextRequests; [by apply SInv_submit|by apply PInv_submit].
  - unfold dispatchMessage.
    pose proof (PInv_sendNextRequests stdin_write h (dispatchBody msg st)
      (SInv_dispatchBody h msg st HI) (PInv_dispatchBody h msg st HI HP)) as H.
    destruct msg; try done. by apply PInv_emit.
  - by apply PInv_onCancellationRequested.
  - apply PInv_destroyCallbacks;
      [unfold teardownCause; tauto|by apply SInv_emit|by apply PInv_emit].
  - apply PInv_destroyCallbacks;
      [unfold teardownCause; tauto|by apply SInv_emit|by apply PInv_emit].
  - unfold dispose.
    apply (PInv_view _ _
      (destroyCallbacks (JsError "server disposed") (emit [EDisposeSuper] st)));
      [done|].
    apply PInv_destroyCallbacks;
      [unfold teardownCause; tauto|by apply SInv_emit|by apply PInv_emit].
Qed.

Lemma PInv_task h op st :
  SInv h st → PInv (registered st) h st → jobs st = [] →
  PInv (registered (task stdin_write op st)) (h ++ submittedItem op st)
    (task stdin_write op st)
  ∧ jobs (task stdin_write op st) = [].
Proof.
  intros HI HP Hj. unfold task.
  destruct (runJobs_frame (handle stdin_write op st)) as (_ & Hc & _ & _ & Hj').
  split; [|done].
  apply (PInv_ext (registered (handle stdin_write op st))).
  { intros k. symmetry. by apply registered_frame. }
  by apply PInv_runJobs, PInv_handle.
Qed.

Lemma PInv_run ops : ∀ h st,
  SInv h st → PInv (registered st) h st → jobs st = [] →
  PInv (registered (run stdin_write ops st))
    (h ++ submitted stdin_write ops st) (run stdin_write ops st)
  ∧ jobs (run stdin_write ops st) = [].
Proof.
  induction ops as [|op ops IH]; intros h st HI HP Hj; simpl.
  - by rewrite app_nil_r.
  - rewrite app_assoc. destruct (PInv_task h op st HI HP Hj) as [HP' Hj'].
    apply IH; [by apply SInv_task|done..].
Qed.

Lemma reachable_PInv pipe ops :
  let st := run stdin_write ops (newServer pipe) in
  PInv (registered st) (submitted stdin_write ops (newServer pipe)) st
  ∧ jobs st = [].
Proof.
  apply (PInv_run ops [] (newServer pipe) (SInv_init pipe)); [|done].
  apply (PInv_ext (λ _, False)); [|apply PInv_init].
  intros k. split; [done|]. by intros [[? [=]]|[? [=]]].
Qed.

(** C1. For every sequence of tasks, every request submitted with
    [expectsResult] has, at every moment, had no continuation called while
    its outcome is still registered and exactly one call of one continuation
    once it is no longer registered; after a final [dispose] both callback
    maps are empty, so that each such request has had exactly one call. *)
Theorem every_outcome_resolved_exactly_once pipe ops :
  let h := submitted stdin_write ops (newServer pipe) in
  let st := run stdin_write ops (newServer pipe) in
  let st' := run stdin_write (ops ++ [OpDispose]) (newServer pipe) in
  (∀ item, item ∈ h → expectsResponse item = true →
     (registered st (seqOf item) → invocations (seqOf item) (trace st) = 0%nat)
     ∧ (¬ registered st (seqOf item) →
        invocations (seqOf item) (trace st) = 1%nat))
  ∧ syncCallbacks st' = [] ∧ asyncCallbacks st' = []
  ∧ (∀ item, item ∈ h → expectsResponse item = true →
       invocations (seqOf item) (trace st') = 1%nat).
Proof.
  intros h st st'.
  destruct (reachable_PInv pipe ops) as [HP _]. fold st h in HP.
  destruct (reachable_PInv pipe (ops ++ [OpDispose])) as [HP' _].
  fold st' in HP'. rewrite submitted_app in HP'. simpl in HP'.
  rewrite app_nil_r in HP'. fold h in HP'.
  assert (_callbacks st' = CallbackMap.empty) as Hc.
  { unfold st'. rewrite run_app. simpl. unfold task. simpl.
    destruct (runJobs_frame (dispose (run stdin_write ops (newServer pipe))))
      as (_ & -> & _).
    unfold dispose, destroyCallbacks, CallbackMap.destroy. done. }
  split_and!.
  - intros item Hin He. split.
    + intros Hreg. by apply (p_reg _ _ _ HP).
    + intros Hreg. apply (p_done _ _ _ HP); [done|].
      by apply (p_all _ _ _ HP).
  - unfold syncCallbacks. by rewrite Hc.
  - unfold asyncCallbacks. by rewrite Hc.
  - intros item Hin He. apply (p_done _ _ _ HP').
    + unfold registered, syncCallbacks, asyncCallbacks. rewrite Hc. simpl.
      by intros [[? [=]]|[? [=]]].
    + by apply (p_all _ _ _ HP').
Qed.


End OutcomeClaims.

Import Scenario.

Lemma every_outcome_resolved_exactly_once_witness :
  invocations 1
    (trace (run writes_succeed
              ([OpExecute "geterr" "" async_info 0;
                OpExecute "quickinfo" "" sync_info 0;
                OpCancel 0] ++ [OpDispose]) (newServer None))) = 1%nat.
Proof.
  destruct (every_outcome_resolved_exactly_once writes_succeed None
              [OpExecute "geterr" "" async_info 0;
               OpExecute "quickinfo" "" sync_info 0;
               OpCancel 0]) as (_ & _ & _ & H).
  apply (H (item 1 "quickinfo" sync_info)).
  - vm_compute. right. left.
  - reflexivity.
Defined.

Lemma exit_fails_all_keeps_queue_witness :
  queueOf (task writes_succeed (OpExit "1") before_exit)
  = [item 2 "references" sync_info; item 3 "rename" sync_info].
Proof.
  apply (exit_fails_all_keeps_queue writes_succeed before_exit
           (item 2 "references" sync_info) (item 3 "rename" sync_info)
           (callback 2 sync_info) (callback 3 sync_info)
           0 (callback 0 async_info) "1"); reflexivity.
Defined.

(** C2, as stated, fails: in the state of the scenario (requests 2 and 3
    synchronous, queued and unsent; request 0 asynchronous, written and
    unresolved; these three the only registered outcomes), the exit of the
    worker fails the three outcomes and leaves the two requests queued. *)
Lemma exit_leaves_queue_counterexample :
  queueOf before_exit
  = [item 2 "references" sync_info; item 3 "rename" sync_info]
  ∧ JsMap.keys (syncCallbacks before_exit) = [2; 3]
  ∧ JsMap.keys (asyncCallbacks before_exit) = [0]
  ∧ seq <$> writes (trace before_exit) = [0; 1]
  ∧ failures (trace (task writes_succeed (OpExit "1") before_exit))
    = failures (trace before_exit)
      ++ [(2, JsError "server exited"); (3, JsError "server exited");
          (0, JsError "server exited")]
  ∧ queueOf (task writes_succeed (OpExit "1") before_exit) ≠ [].
Proof. vm_compute. by split_and!. Qed.

Lemma dispatch_response_clears_pending_witness :
  0 ∉ _pendingResponses
        (dispatchMessage writes_succeed (response 0 true)
           (run writes_succeed [OpExecute "quickinfo" "" sync_info 0]
              (newServer None))).
Proof.
  destruct (dispatch_response_clears_pending writes_succeed None
              [OpExecute "quickinfo" "" sync_info 0] (response 0 true))
    as [_ H].
  apply (H {| request_seq := 0; success := true; message := None;
              body := "" |}).
  - reflexivity.
  - left. vm_compute. by eexists.
  - by vm_compute.
Defined.

(** C3, as stated, fails on both kinds of message: a [requestCompleted]
    event naming the synchronous request in flight resolves its outcome and
    leaves its number in [_pendingResponses]; so does a response that finds
    no callback registered, here after the worker exited. *)
Lemma dispatch_keeps_pending_counterexample :
  let st := run writes_succeed [OpExecute "quickinfo" "" sync_info 0]
              (newServer None) in
  let st' := task writes_succeed (OpExit "1") st in
  (0 ∈ _pendingResponses st
   ∧ 0 ∈ _pendingResponses (dispatchMessage writes_succeed (requestCompleted 0) st))
  ∧ (0 ∈ _pendingResponses st'
     ∧ 0 ∈ _pendingResponses
             (dispatchMessage writes_succeed (response 0 true) st')).
Proof. by vm_compute. Qed.

Lemma pendingResponses_at_most_one_witness :
  seqOf (item 0 "geterr" async_info)
  ∉ _pendingResponses
      (run writes_succeed
         [OpExecute "geterr" "" async_info 0;
          OpExecute "quickinfo" "" sync_info 0] (newServer None)).
Proof.
  destruct (pendingResponses_at_most_one writes_succeed None
              [OpExecute "geterr" "" async_info 0;
               OpExecute "quickinfo" "" sync_info 0]) as (_ & _ & H).
  apply H.
  - vm_compute. left.
  - reflexivity.
Defined.

Lemma sync_requests_one_at_a_time_witness :
  ({| seq := 1; command := "references"; arguments := "" |}
   ∉ writes (trace two_sync))
  ∧ (∃ rest,
       writes (trace (task writes_succeed (OpData (response 0 true)) two_sync))
       = writes (trace two_sync)
         ++ {| seq := 1; command := "references"; arguments := "" |} :: rest).
Proof.
  destruct (sync_requests_one_at_a_time writes_succeed None []
              "quickinfo" "" true 0 "references" "" sync_info 0 [])
    as [H1 H2].
  split.
  - apply H1. left. vm_compute. by eexists.
  - apply (H2 ltac:(left; vm_compute; by eexists) ltac:(by vm_compute)
              ltac:(vm_compute; left)
              {| request_seq := 0; success := true; message := None;
                 body := "" |} eq_refl).
Defined.

Lemma tryCancelRequest_fails_registered_witness :
  ∃ cb es,
    (JsMap.get (syncCallbacks two_sync) 0 = Some cb
     ∨ JsMap.get (syncCallbacks two_sync) 0 = None
       ∧ JsMap.get (asyncCallbacks two_sync) 0 = Some cb)
    ∧ trace (tryCancelRequest 0 two_sync).2
      = trace two_sync ++ es ++ [EOnError (promise cb) (cancelledError 0)]
    ∧ invoked es = []
    ∧ 0 ∉ _pendingResponses (tryCancelRequest 0 two_sync).2.
Proof.
  apply (tryCancelRequest_fails_registered two_sync 0).
  left. vm_compute. by eexists.
Defined.

Lemma cancel_does_not_drain_witness :
  _pendingResponses (tryCancelRequest 0 two_sync).2 = ∅
  ∧ queueOf (tryCancelRequest 0 two_sync).2 = queueOf two_sync
  ∧ writes (trace (tryCancelRequest 0 two_sync).2) = writes (trace two_sync).
Proof.
  destruct (cancel_does_not_drain writes_succeed two_sync 0)
    as (Hw & _ & H & _).
  destruct H as (Hp & Hq & _).
  - left. vm_compute. by eexists.
  - by vm_compute.
  - vm_compute. intros H. apply elem_of_cons in H as [H|H];
      [discriminate H | by apply elem_of_nil in H].
  - by split_and!.
Defined.

